(** * Three Dice Game: the derivation engine

    A shallow embedding of [src/lib/game-utils.ts], [src/lib/mappers.ts] and
    the super-stairs validation of the game service, with the properties the
    specification states about them.

    Conventions of the embedding:
    - a JavaScript [number] that holds a die face, an id or a count is a [Z];
      a score is a [number] below, which adds [NaN] and [Infinity] to the
      integers because [calculateScore] and [findLoserFromTurns] can produce
      them;
    - [undefined] and [null] are [None];
    - an exception ([TypeError] on a property read of [undefined]) is [None]
      in the result of the function that can throw;
    - the wall clock read by [new Date()] and the draws of [Math.random()]
      are explicit arguments. *)

From stdpp Require Import base option list sorting gmap strings.

Local Open Scope Z_scope.

(** ** JavaScript numbers, as far as the engine uses them *)

Inductive number : Type :=
  | Num (z : Z)
  | NaN
  | Infinity.

Global Instance number_eq_dec : EqDecision number.
Proof. solve_decision. Defined.

(** [ToNumber] of the result of a table lookup: [undefined] becomes [NaN]. *)
Definition to_number (o : option Z) : number :=
  match o with
  | Some z => Num z
  | None => NaN
  end.

(** [a + b] on numbers. *)
Definition number_add (a b : number) : number :=
  match a, b with
  | Num x, Num y => Num (x + y)
  | NaN, _ | _, NaN => NaN
  | _, _ => Infinity
  end.

(** [a < b] on numbers: every comparison with [NaN] is false. *)
Definition number_lt (a b : number) : bool :=
  match a, b with
  | Num x, Num y => bool_decide (x < y)
  | Num _, Infinity => true
  | _, _ => false
  end.

(** Truthiness of a number, as [||] tests it: [0] and [NaN] are falsy. *)
Definition number_truthy (a : number) : bool :=
  match a with
  | Num 0 => false
  | NaN => false
  | _ => true
  end.

(** [Date] values are milliseconds since the epoch. *)
Definition Date : Type := Z.

(** ** The schema ([src/db/schema.ts]) *)

Inductive SpecialRollType : Type :=
  | three_of_a_kind
  | stairs
  | super_stairs
  | shit_stairs
  | none.

Global Instance SpecialRollType_eq_dec : EqDecision SpecialRollType.
Proof. solve_decision. Defined.

Inductive PlayerType : Type :=
  | registered
  | guest.

Record Die : Type := mkDie { value : Z; kept : bool }.

Definition Dice : Type := list Die.

Module SelectRoll.
Record t : Type := mk {
  id : Z;
  gameSessionId : Z;
  playerTurnId : Z;
  rollNumber : Z;
  dice : Dice;
  rolledAt : Date
}.
End SelectRoll.

Module SelectPlayerTurn.
Record t : Type := mk {
  id : Z;
  gameSessionId : Z;
  roundId : Z;
  participantId : Z;
  turnOrder : Z
}.
End SelectPlayerTurn.

Module SelectRound.
Record t : Type := mk {
  id : Z;
  gameSessionId : Z;
  roundNumber : Z;
  playerOrder : list Z;
  startedAt : Date
}.
End SelectRound.

Record GameSessionConfig : Type := mkConfig {
  name : string;
  randomTurnOrder : bool
}.

Module SelectGameSession.
Record t : Type := mk {
  id : Z;
  ownerId : string;
  config : GameSessionConfig;
  createdAt : Date;
  completedAt : option Date
}.
End SelectGameSession.

Module SelectGameParticipant.
Record t : Type := mk {
  id : Z;
  gameSessionId : Z;
  playerId : option Z;
  playerType : PlayerType;
  guestName : option string;
  joinedAt : Date
}.
End SelectGameParticipant.

(** ** The domain models ([src/lib/models.ts])

    Each model [extends] its row: the row is kept whole in [base], which is
    what the object spread [...row] copies. *)

Module RollModel.
Record t : Type := mk {
  base : SelectRoll.t;
  score : number;
  specialRollType : SpecialRollType
}.
End RollModel.

Module PlayerTurnModel.
Record t : Type := mk {
  base : SelectPlayerTurn.t;
  rolls : list RollModel.t;
  totalRollsUsed : Z;
  finalScore : option number;
  isSafe : bool;
  specialRollType : SpecialRollType;
  completedAt : Date
}.
Definition participantId (m : t) : Z := SelectPlayerTurn.participantId (base m).
End PlayerTurnModel.

Inductive RoundStatus : Type :=
  | round_in_progress
  | round_completed.

Module RoundModel.
Record t : Type := mk {
  base : SelectRound.t;
  turns : list PlayerTurnModel.t;
  status : RoundStatus;
  startingParticipantId : option Z;
  maxRollsAllowed : Z;
  currentPenaltySips : Z;
  finalPenaltySips : option Z;
  losingParticipantId : option Z;
  completedAt : option Date
}.
End RoundModel.

Inductive GameStatus : Type :=
  | game_waiting
  | game_in_progress
  | game_completed.

Module GameModel.
Record t : Type := mk {
  base : SelectGameSession.t;
  participants : list SelectGameParticipant.t;
  rounds : list RoundModel.t;
  status : GameStatus;
  startedAt : option Date
}.
End GameModel.

(** ** Pure utilities ([src/lib/game-utils.ts]) *)

(** The table [DICE_POINTS]; a key that is not in it reads [undefined]. *)
Definition DICE_POINTS (face : Z) : option Z :=
  match face with
  | 1 => Some 100
  | 2 => Some 2
  | 3 => Some 3
  | 4 => Some 4
  | 5 => Some 5
  | 6 => Some 60
  | _ => None
  end.

Definition calculateScore (dice : Dice) : number :=
  foldl (λ sum d, number_add sum (to_number (DICE_POINTS (value d)))) (Num 0) dice.

(** [dice.map((d) => d.value).sort((a, b) => a - b)]: the faces in ascending
    numeric order. *)
Definition sorted_values (dice : Dice) : list Z :=
  merge_sort Z.le (value <$> dice).

(** [values[i] === k] and [values[i] === values[j]]: an index past the end
    reads [undefined], and [undefined === undefined] holds. *)
Definition strict_eq (a b : option Z) : bool := bool_decide (a = b).

Definition detectSpecialRoll (dice : Dice) : SpecialRollType :=
  let values := sorted_values dice in
  let v0 := values !! 0%nat in
  let v1 := values !! 1%nat in
  let v2 := values !! 2%nat in
  if strict_eq v0 v1 && strict_eq v1 v2 then three_of_a_kind
  else if strict_eq v0 (Some 1) && strict_eq v1 (Some 2) && strict_eq v2 (Some 3)
  then stairs
  else if strict_eq v0 (Some 4) && strict_eq v1 (Some 5) && strict_eq v2 (Some 6)
  then super_stairs
  else if (strict_eq v0 (Some 2) && strict_eq v1 (Some 3) && strict_eq v2 (Some 4))
          || (strict_eq v0 (Some 3) && strict_eq v1 (Some 4) && strict_eq v2 (Some 5))
  then shit_stairs
  else none.

Definition isSafeRoll (specialRollType : SpecialRollType) : bool :=
  bool_decide (specialRollType ≠ none) && bool_decide (specialRollType ≠ shit_stairs).

Definition getThreeOfAKindSips (diceValue : Z) : Z :=
  if bool_decide (diceValue = 1) then 7 else diceValue.

Definition getStartingParticipant (playerOrder : list Z) : option Z :=
  playerOrder !! 0%nat.

Definition isSuperStairsValid (currentDice : Dice) (previousTurnWasStairs : bool) : bool :=
  let values := sorted_values currentDice in
  let isStairs456 :=
    strict_eq (values !! 0%nat) (Some 4) && strict_eq (values !! 1%nat) (Some 5)
    && strict_eq (values !! 2%nat) (Some 6) in
  isStairs456 && previousTurnWasStairs.

Definition isRoundCompleteFromData (playerOrder : list Z) (turnCount : nat) : bool :=
  bool_decide (turnCount = length playerOrder).

(** [firstTurnRolls.length || 3] *)
Definition getMaxRollsFromFirstTurn {A} (firstTurnRolls : list A) : Z :=
  if bool_decide (length firstTurnRolls = 0%nat) then 3
  else Z.of_nat (length firstTurnRolls).

(** [calculatePenaltyFromTurns]: the base penalty of one sip plus the bonus of
    every three-of-a-kind turn.  The loop body reads
    [turn.rolls[turn.rolls.length - 1].dice[0].value]; when the turn has no
    roll or the roll has no die that read throws, which is [None] here. *)
Definition penaltyStep (penaltySips : Z) (turn : PlayerTurnModel.t) : option Z :=
  if bool_decide (PlayerTurnModel.specialRollType turn = three_of_a_kind) then
    lastRoll ← last (PlayerTurnModel.rolls turn);
    die ← SelectRoll.dice (RollModel.base lastRoll) !! 0%nat;
    let diceValue := value die in
    Some (penaltySips + getThreeOfAKindSips diceValue)
  else Some penaltySips.

Definition calculatePenaltyFromTurns (turns : list PlayerTurnModel.t) : option Z :=
  foldl (λ acc turn, penaltySips ← acc; penaltyStep penaltySips turn) (Some 1) turns.

(** [t.finalScore ?? Number.POSITIVE_INFINITY] *)
Definition scoreOrInfinity (t : PlayerTurnModel.t) : number :=
  default Infinity (PlayerTurnModel.finalScore t).

(** The callback of the [reduce] in [findLoserFromTurns]. *)
Definition lowerOf (lowest current : PlayerTurnModel.t) : PlayerTurnModel.t :=
  let lowestScore := scoreOrInfinity lowest in
  let currentScore := scoreOrInfinity current in
  if number_lt currentScore lowestScore then current else lowest.

(** [reduce] without an initial value starts from the first element. *)
Definition findLoserFromTurns (turns : list PlayerTurnModel.t) : option Z :=
  let unsafeTurns := filter (λ t, PlayerTurnModel.isSafe t = false) turns in
  match unsafeTurns with
  | [] => None
  | first :: rest =>
      let losingTurn := foldl lowerOf first rest in
      Some (PlayerTurnModel.participantId losingTurn)
  end.

(** [[shuffled[i], shuffled[j]] = [shuffled[j], shuffled[i]]].  Both reads
    happen before both writes.  For an index past the end the source would
    read [undefined] and grow the array; [shuffleArray] never gets there,
    because [Math.floor(Math.random() * (i + 1))] is at most [i], and the
    embedding leaves the list as it is. *)
Definition swap {A} (shuffled : list A) (i j : nat) : list A :=
  match shuffled !! i, shuffled !! j with
  | Some xi, Some xj => <[j:=xi]> (<[i:=xj]> shuffled)
  | _, _ => shuffled
  end.

(** The loop [for (let i = n; i > 0; i--)] of the Fisher-Yates shuffle.
    [draw i] is the value of [Math.floor(Math.random() * (i + 1))] in the
    iteration with index [i]. *)
Fixpoint shuffleLoop {A} (draw : nat → nat) (i : nat) (shuffled : list A) : list A :=
  match i with
  | O => shuffled
  | S i' => shuffleLoop draw i' (swap shuffled i (draw i))
  end.

Definition shuffleArray {A} (draw : nat → nat) (array : list A) : list A :=
  shuffleLoop draw (length array - 1)%nat array.

Definition createPlayerOrder (draw : nat → nat) (startingParticipantId : Z)
    (allParticipantIds : list Z) (shuffleOrder : bool) : list Z :=
  let remaining := filter (λ id, id ≠ startingParticipantId) allParticipantIds in
  let orderedRemaining := if shuffleOrder then shuffleArray draw remaining else remaining in
  startingParticipantId :: orderedRemaining.

(** ** Mappers ([src/lib/mappers.ts]) *)

Definition mapRoll (roll : SelectRoll.t) : RollModel.t :=
  let specialRollType := detectSpecialRoll (SelectRoll.dice roll) in
  RollModel.mk roll (calculateScore (SelectRoll.dice roll)) specialRollType.

(** [lastRoll?.score || 0] *)
Definition scoreOrZero (lastRoll : option RollModel.t) : number :=
  match lastRoll with
  | Some r => if number_truthy (RollModel.score r) then RollModel.score r else Num 0
  | None => Num 0
  end.

(** [now] is the value [new Date()] has when the call reads the clock. *)
Definition mapPlayerTurn (now : Date) (turn : SelectPlayerTurn.t)
    (rolls : list SelectRoll.t) : PlayerTurnModel.t :=
  let rollModels := mapRoll <$> rolls in
  let lastRoll := last rollModels in
  let specialRollType := from_option RollModel.specialRollType none lastRoll in
  let isSafe := isSafeRoll specialRollType in
  PlayerTurnModel.mk turn rollModels (Z.of_nat (length rollModels))
    (if isSafe then None else Some (scoreOrZero lastRoll))
    isSafe specialRollType
    (from_option (λ r, SelectRoll.rolledAt (RollModel.base r)) now lastRoll).

(** [rollsByTurnId.get(turn.id) || []] *)
Definition rollsOfTurn (rollsByTurnId : gmap Z (list SelectRoll.t))
    (turn : SelectPlayerTurn.t) : list SelectRoll.t :=
  default [] (rollsByTurnId !! SelectPlayerTurn.id turn).

Definition mapTurns (clock : nat → Date) (turns : list SelectPlayerTurn.t)
    (rollsByTurnId : gmap Z (list SelectRoll.t)) : list PlayerTurnModel.t :=
  imap (λ k turn, mapPlayerTurn (clock k) turn (rollsOfTurn rollsByTurnId turn)) turns.

(** [clock k] is the reading of the clock while the turn at index [k] is
    mapped.  The result is [None] when [calculatePenaltyFromTurns] throws. *)
Definition mapRound (clock : nat → Date) (round : SelectRound.t)
    (turns : list SelectPlayerTurn.t)
    (rollsByTurnId : gmap Z (list SelectRoll.t)) : option RoundModel.t :=
  let turnModels := mapTurns clock turns rollsByTurnId in
  let isComplete := isRoundCompleteFromData (SelectRound.playerOrder round) (length turns) in
  let status := if isComplete then round_completed else round_in_progress in
  let maxRollsAllowed :=
    match turnModels with
    | first :: _ => getMaxRollsFromFirstTurn (PlayerTurnModel.rolls first)
    | [] => 3
    end in
  currentPenaltySips ← calculatePenaltyFromTurns turnModels;
  let losingParticipantId := if isComplete then findLoserFromTurns turnModels else None in
  let startingParticipantId := getStartingParticipant (SelectRound.playerOrder round) in
  let completedAt :=
    if isComplete then PlayerTurnModel.completedAt <$> last turnModels else None in
  Some (RoundModel.mk round turnModels status startingParticipantId maxRollsAllowed
          currentPenaltySips
          (if isComplete then Some currentPenaltySips else None)
          losingParticipantId completedAt).

(** [turnsByRoundId.get(round.id) || []] *)
Definition turnsOfRound (turnsByRoundId : gmap Z (list SelectPlayerTurn.t))
    (round : SelectRound.t) : list SelectPlayerTurn.t :=
  default [] (turnsByRoundId !! SelectRound.id round).

(** [clock r k] is the reading of the clock while turn [k] of the round at
    index [r] is mapped. *)
Definition mapGame (clock : nat → nat → Date) (session : SelectGameSession.t)
    (participants : list SelectGameParticipant.t) (rounds : list SelectRound.t)
    (turnsByRoundId : gmap Z (list SelectPlayerTurn.t))
    (rollsByTurnId : gmap Z (list SelectRoll.t)) : option GameModel.t :=
  roundModels ← mapM id
    (imap (λ r round,
       mapRound (clock r) round (turnsOfRound turnsByRoundId round) rollsByTurnId) rounds);
  let status :=
    match SelectGameSession.completedAt session with
    | Some _ => game_completed
    | None =>
        if bool_decide (0 < length roundModels)%nat then game_in_progress
        else game_waiting
    end in
  let startedAt := (λ r, SelectRound.startedAt (RoundModel.base r)) <$> roundModels !! 0%nat in
  Some (GameModel.mk session participants roundModels status startedAt).

(** ** The store and its queries ([src/db/queries])

    The tables are lists of rows.  A query is a filter followed by
    [orderBy] on one integer column; the service below reads one snapshot of
    the store. *)

Record Store : Type := mkStore {
  playerTurnsTable : list SelectPlayerTurn.t;
  rollsTable : list SelectRoll.t
}.

Definition columnLe {A} (column : A → Z) : relation A :=
  λ a b, column a ≤ column b.

Global Instance columnLe_dec {A} (column : A → Z) : RelDecision (columnLe column).
Proof. intros a b. unfold columnLe. apply _. Defined.

Definition orderBy {A} (column : A → Z) (rows : list A) : list A :=
  merge_sort (columnLe column) rows.

Section GameService.

Variable db : Store.

Definition getPlayerTurnsByRound (roundId gameSessionId : Z) : list SelectPlayerTurn.t :=
  orderBy SelectPlayerTurn.turnOrder
    (filter (λ t, SelectPlayerTurn.gameSessionId t = gameSessionId
                  ∧ SelectPlayerTurn.roundId t = roundId)
       (playerTurnsTable db)).

Definition getRollsByPlayerTurn (playerTurnId gameSessionId : Z) : list SelectRoll.t :=
  orderBy SelectRoll.rollNumber
    (filter (λ r, SelectRoll.gameSessionId r = gameSessionId
                  ∧ SelectRoll.playerTurnId r = playerTurnId)
       (rollsTable db)).

(** ** Super-stairs validation of the game service *)

(** [turns.find((t) => t.turnOrder === currentTurnOrder - 1)] *)
Definition findPreviousTurn (turns : list SelectPlayerTurn.t) (currentTurnOrder : Z)
    : option SelectPlayerTurn.t :=
  snd <$> list_find (λ t, SelectPlayerTurn.turnOrder t = currentTurnOrder - 1) turns.

Definition wasPreviousTurnStairs (now : Date) (roundId currentTurnOrder gameSessionId : Z)
    : bool :=
  if bool_decide (currentTurnOrder ≤ 1) then false
  else
    let turns := getPlayerTurnsByRound roundId gameSessionId in
    match findPreviousTurn turns currentTurnOrder with
    | None => false
    | Some previousTurn =>
        let rolls := getRollsByPlayerTurn (SelectPlayerTurn.id previousTurn) gameSessionId in
        let previousTurnModel := mapPlayerTurn now previousTurn rolls in
        bool_decide (PlayerTurnModel.specialRollType previousTurnModel = stairs)
    end.

Definition validateSuperStairs (now : Date) (roundId currentTurnOrder : Z) (dice : Dice)
    (gameSessionId : Z) : bool :=
  let previousWasStairs := wasPreviousTurnStairs now roundId currentTurnOrder gameSessionId in
  isSuperStairsValid dice previousWasStairs.

End GameService.

(** ** Vocabulary of the specification

    The definitions below follow the words of the specification, not the
    code; the theorems compare the two. *)

(** A Dice Set of the data model: exactly three faces, each in 1..6. *)
Definition validFace (face : Z) : bool := bool_decide (1 ≤ face ≤ 6).

Definition validDice (dice : Dice) : bool :=
  bool_decide (length dice = 3%nat) && forallb (λ d, validFace (value d)) dice.

Definition validRoll (roll : SelectRoll.t) : bool := validDice (SelectRoll.dice roll).

(** Every roll recorded for one of [turns] holds a Dice Set. *)
Definition validRolls (rollsByTurnId : gmap Z (list SelectRoll.t))
    (turns : list SelectPlayerTurn.t) : bool :=
  forallb (λ turn, forallb validRoll (rollsOfTurn rollsByTurnId turn)) turns.

(** The per-face point value: 1→100, 2→2, 3→3, 4→4, 5→5, 6→60. *)
Definition facePoints (face : Z) : Z :=
  match face with
  | 1 => 100
  | 2 => 2
  | 3 => 3
  | 4 => 4
  | 5 => 5
  | 6 => 60
  | _ => 0
  end.

(** The point total of a roll: the sum of the point values of its faces. *)
Definition pointTotal (dice : Dice) : Z :=
  foldr (λ d total, facePoints (value d) + total) 0 dice.

(** The classifier as the specification words it: sort the three faces
    ascending, then test the patterns in precedence order. *)
Definition classify (faces : list Z) : SpecialRollType :=
  match merge_sort Z.le faces with
  | [x; y; z] =>
      if bool_decide (x = y ∧ y = z) then three_of_a_kind
      else if bool_decide ([x; y; z] = [1; 2; 3]) then stairs
      else if bool_decide ([x; y; z] = [4; 5; 6]) then super_stairs
      else if bool_decide ([x; y; z] = [2; 3; 4] ∨ [x; y; z] = [3; 4; 5]) then shit_stairs
      else none
  | _ => none
  end.

(** The safe categories. *)
Definition safeCategory (category : SpecialRollType) : Prop :=
  category = three_of_a_kind ∨ category = stairs ∨ category = super_stairs.

(** The three-of-a-kind bonus: face 1 → 7, face 6 → 6, face n in 2..5 → n. *)
Definition threeOfAKindBonus (face : Z) : Z :=
  if bool_decide (face = 1) then 7
  else if bool_decide (face = 6) then 6
  else if bool_decide (2 ≤ face ≤ 5) then face
  else 0.

(** The face a roll repeats on all of its dice, when there is one. *)
Definition repeatedFace (dice : Dice) : option Z :=
  match dice with
  | d :: rest =>
      if forallb (λ e, bool_decide (value e = value d)) rest then Some (value d) else None
  | [] => None
  end.

(** The bonus one turn adds to the round's penalty. *)
Definition turnBonus (turn : PlayerTurnModel.t) : Z :=
  if bool_decide (PlayerTurnModel.specialRollType turn = three_of_a_kind) then
    match last (PlayerTurnModel.rolls turn) with
    | Some lastRoll =>
        from_option threeOfAKindBonus 0 (repeatedFace (SelectRoll.dice (RollModel.base lastRoll)))
    | None => 0
    end
  else 0.

(** One sip, plus the bonus of every turn. *)
Definition penaltyOf (turns : list PlayerTurnModel.t) : Z :=
  1 + foldr (λ turn total, turnBonus turn + total) 0 turns.

(** An unsafe turn whose final score is the number [s]. *)
Definition unsafeWithScore (turn : PlayerTurnModel.t) (s : Z) : Prop :=
  PlayerTurnModel.isSafe turn = false ∧ PlayerTurnModel.finalScore turn = Some (Num s).

(** The score a turn enters the loser comparison with is an ordinary number
    or [Infinity] (for a missing score), never [NaN]. *)
Definition comparable (turn : PlayerTurnModel.t) : Prop :=
  PlayerTurnModel.finalScore turn ≠ Some NaN.

(** The earliest turn of [pre ++ t :: post] that attains the minimum final
    score among the unsafe turns: [t] is unsafe, every unsafe turn before it
    is strictly above it, no unsafe turn after it is strictly below it. *)
Definition earliestMinimum (pre : list PlayerTurnModel.t) (t : PlayerTurnModel.t)
    (post : list PlayerTurnModel.t) : Prop :=
  PlayerTurnModel.isSafe t = false
  ∧ (∀ u, u ∈ pre → PlayerTurnModel.isSafe u = false →
          number_lt (scoreOrInfinity t) (scoreOrInfinity u) = true)
  ∧ (∀ u, u ∈ post → PlayerTurnModel.isSafe u = false →
          number_lt (scoreOrInfinity u) (scoreOrInfinity t) = false).

(** Every draw of the shuffle is in range: iteration [i] draws an index of
    [0..i], as [Math.floor(Math.random() * (i + 1))] does. *)
Definition drawsInRange (draw : nat → nat) : Prop := ∀ i : nat, (draw i ≤ i)%nat.

(** ** The first worked example of the game rules

    Players A, B, C and D are participants 11 to 14.  A rolls (1,2,4) and
    then (1,1,3); B rolls (2,3,3) and then (3,3,3); C rolls (1,2,3); D rolls
    (6,5,3) and then (6,5,2). *)

Definition rollOf (turnId rollNumber : Z) (faces : list Z) : SelectRoll.t :=
  SelectRoll.mk (10 * turnId + rollNumber) 1 turnId rollNumber
    ((λ face, mkDie face false) <$> faces) (1000 * turnId + rollNumber).

Definition example1Round : SelectRound.t :=
  SelectRound.mk 1 1 1 [11; 12; 13; 14] 500.

Definition example1Turns : list SelectPlayerTurn.t :=
  [ SelectPlayerTurn.mk 1 1 1 11 1;
    SelectPlayerTurn.mk 2 1 1 12 2;
    SelectPlayerTurn.mk 3 1 1 13 3;
    SelectPlayerTurn.mk 4 1 1 14 4 ].

Definition example1Rolls : gmap Z (list SelectRoll.t) :=
  list_to_map
    [ (1, [rollOf 1 1 [1; 2; 4]; rollOf 1 2 [1; 1; 3]]);
      (2, [rollOf 2 1 [2; 3; 3]; rollOf 2 2 [3; 3; 3]]);
      (3, [rollOf 3 1 [1; 2; 3]]);
      (4, [rollOf 4 1 [6; 5; 3]; rollOf 4 2 [6; 5; 2]]) ].

(** A round with a tie: participants 21, 22 and 23 score 104, 7 and 7. *)
Definition tieTurns : list SelectPlayerTurn.t :=
  [ SelectPlayerTurn.mk 1 1 2 21 1;
    SelectPlayerTurn.mk 2 1 2 22 2;
    SelectPlayerTurn.mk 3 1 2 23 3 ].

Definition tieRolls : gmap Z (list SelectRoll.t) :=
  list_to_map
    [ (1, [rollOf 1 1 [1; 2; 2]]);
      (2, [rollOf 2 1 [2; 2; 3]]);
      (3, [rollOf 3 1 [3; 2; 2]]) ].

(** The store that holds the example. *)
Definition example1Store : Store :=
  mkStore example1Turns
    [ rollOf 1 1 [1; 2; 4]; rollOf 1 2 [1; 1; 3];
      rollOf 2 1 [2; 3; 3]; rollOf 2 2 [3; 3; 3];
      rollOf 3 1 [1; 2; 3];
      rollOf 4 1 [6; 5; 3]; rollOf 4 2 [6; 5; 2] ].

(** ** Rolling dice ([src/lib/game-utils.ts])

    [draw k] is the value of [Math.floor(Math.random() * 6)] in the [k]-th
    iteration of [Array.from] in [rollDice]. *)

Definition rollDice (draw : nat → Z) (count : nat) : list Z :=
  (λ k, draw k + 1) <$> seq 0 count.

(** The callback of [previousDice.map] in [createRollWithKept], run from
    position [index] on with the counter [rollIndex].  A read of
    [newRolls[rollIndex++]] past the end of [newRolls] would store
    [undefined] as a face; the result is [None] then. *)
Fixpoint rerollFrom (newRolls diceToReroll : list Z) (index rollIndex : nat)
    (previousDice : Dice) : option Dice :=
  match previousDice with
  | [] => Some []
  | die :: rest =>
      if bool_decide (Z.of_nat index ∈ diceToReroll) then
        face ← newRolls !! rollIndex;
        rest' ← rerollFrom newRolls diceToReroll (S index) (S rollIndex) rest;
        Some (mkDie face false :: rest')
      else
        rest' ← rerollFrom newRolls diceToReroll (S index) rollIndex rest;
        Some (mkDie (value die) true :: rest')
  end.

Definition createRollWithKept (draw : nat → Z) (previousDice : Dice)
    (diceToReroll : list Z) : option Dice :=
  let newRolls := rollDice draw (length diceToReroll) in
  rerollFrom newRolls diceToReroll 0 0 previousDice.

(** Every draw of [rollDice] is one of 0..5. *)
Definition facesInRange (draw : nat → Z) : Prop := ∀ k : nat, 0 ≤ draw k ≤ 5.

(** The positions before [i] that are rerolled. *)
Definition rerolledBefore (diceToReroll : list Z) (i : nat) : nat :=
  length (filter (λ j : nat, Z.of_nat j ∈ diceToReroll) (seq 0 i)).

(** ** The other tables and their queries ([src/db/queries])

    A database is the store of turns and rolls together with the sessions,
    the participants and the rounds.  [limit(1)] takes the first row. *)

(** [orderBy] compares one integer column: the order is total. *)
Global Instance columnLe_trans {A} (column : A → Z) : Transitive (columnLe column).
Proof. intros a b c. unfold columnLe. lia. Defined.

Global Instance columnLe_total {A} (column : A → Z) : Total (columnLe column).
Proof. intros a b. unfold columnLe. lia. Defined.

Record Database : Type := mkDatabase {
  store : Store;
  gameSessionsTable : list SelectGameSession.t;
  gameParticipantsTable : list SelectGameParticipant.t;
  roundsTable : list SelectRound.t
}.

Definition getGameSessionById (db : Database) (id : Z) : option SelectGameSession.t :=
  head (filter (λ s, SelectGameSession.id s = id) (gameSessionsTable db)).

Definition getGameParticipantsBySession (db : Database) (gameSessionId : Z)
    : list SelectGameParticipant.t :=
  orderBy SelectGameParticipant.joinedAt
    (filter (λ p, SelectGameParticipant.gameSessionId p = gameSessionId)
       (gameParticipantsTable db)).

Definition getRoundsBySession (db : Database) (gameSessionId : Z) : list SelectRound.t :=
  orderBy SelectRound.roundNumber
    (filter (λ r, SelectRound.gameSessionId r = gameSessionId) (roundsTable db)).

(** [orderBy(desc(roundsTable.roundNumber)).limit(1)] *)
Definition getLatestRoundQuery (db : Database) (gameSessionId : Z) : option SelectRound.t :=
  head (orderBy (λ r, - SelectRound.roundNumber r)
          (filter (λ r, SelectRound.gameSessionId r = gameSessionId) (roundsTable db))).

(** [latestRound?.roundNumber || 0] *)
Definition getMaxRoundNumber (db : Database) (gameSessionId : Z) : Z :=
  match getLatestRoundQuery db gameSessionId with
  | Some latestRound =>
      if bool_decide (SelectRound.roundNumber latestRound = 0) then 0
      else SelectRound.roundNumber latestRound
  | None => 0
  end.

(** ** The game service

    A rejected promise (an exception of a mapper, or the [Error] of
    [createRound]) is [None]; a result of type [T | null] is an [option]
    inside. *)

(** The map from turn id to rolls that the service fills with
    [rollsByTurnId.set(turn.id, rollsArrays[index])], where [rollsArrays]
    holds [getRollsByPlayerTurn(turn.id, gameSessionId)] for each turn. *)
Definition rollsByTurnIdOf (db : Database) (turns : list SelectPlayerTurn.t)
    (gameSessionId : Z) : gmap Z (list SelectRoll.t) :=
  foldl (λ rollsByTurnId turn,
           <[SelectPlayerTurn.id turn :=
               getRollsByPlayerTurn (store db) (SelectPlayerTurn.id turn) gameSessionId]>
             rollsByTurnId)
    ∅ turns.

(** The map from round id to turns of [getCompleteGame]. *)
Definition turnsByRoundIdOf (db : Database) (rounds : list SelectRound.t)
    (gameSessionId : Z) : gmap Z (list SelectPlayerTurn.t) :=
  foldl (λ turnsByRoundId round,
           <[SelectRound.id round :=
               getPlayerTurnsByRound (store db) (SelectRound.id round) gameSessionId]>
             turnsByRoundId)
    ∅ rounds.

Definition getCompleteGame (db : Database) (clock : nat → nat → Date) (gameSessionId : Z)
    : option (option GameModel.t) :=
  match getGameSessionById db gameSessionId with
  | None => Some None
  | Some session =>
      let participants := getGameParticipantsBySession db (SelectGameSession.id session) in
      let rounds := getRoundsBySession db (SelectGameSession.id session) in
      let turnsArrays :=
        (λ round, getPlayerTurnsByRound (store db) (SelectRound.id round) gameSessionId)
          <$> rounds in
      let turnsByRoundId := turnsByRoundIdOf db rounds gameSessionId in
      let allTurns := concat turnsArrays in
      let rollsByTurnId := rollsByTurnIdOf db allTurns gameSessionId in
      game ← mapGame clock session participants rounds turnsByRoundId rollsByTurnId;
      Some (Some game)
  end.

(** The steps [getLatestRound], [getCurrentRound], [getNextParticipantToPlay]
    and [getParticipantStats] share: fetch the turns of the round, fetch
    their rolls, map the round. *)
Definition roundModelOf (db : Database) (clock : nat → Date) (round : SelectRound.t)
    (gameSessionId : Z) : option RoundModel.t :=
  let turns := getPlayerTurnsByRound (store db) (SelectRound.id round) gameSessionId in
  let rollsByTurnId := rollsByTurnIdOf db turns gameSessionId in
  mapRound clock round turns rollsByTurnId.

Definition getLatestRound (db : Database) (clock : nat → Date) (gameSessionId : Z)
    : option (option RoundModel.t) :=
  match getLatestRoundQuery db gameSessionId with
  | None => Some None
  | Some round =>
      roundModel ← roundModelOf db clock round gameSessionId;
      Some (Some roundModel)
  end.

Definition getCurrentRound (db : Database) (clock : nat → Date) (gameSessionId : Z)
    : option (option RoundModel.t) :=
  let rounds := getRoundsBySession db gameSessionId in
  match last rounds with
  | None => Some None
  | Some latestRound =>
      roundModel ← roundModelOf db clock latestRound gameSessionId;
      Some (match RoundModel.status roundModel with
            | round_in_progress => Some roundModel
            | round_completed => None
            end)
  end.

Definition getNextParticipantToPlay (db : Database) (clock : nat → Date) (roundId : Z)
    : option (option Z) :=
  let rounds := filter (λ r, SelectRound.id r = roundId) (roundsTable db) in
  match head rounds with
  | None => Some None
  | Some round =>
      let gameSessionId := SelectRound.gameSessionId round in
      roundModel ← roundModelOf db clock round gameSessionId;
      let playerOrder := SelectRound.playerOrder (RoundModel.base roundModel) in
      let turnModels := RoundModel.turns roundModel in
      if bool_decide (length turnModels = 0%nat) then Some (playerOrder !! 0%nat)
      else if bool_decide (length playerOrder ≤ length turnModels)%nat then Some None
      else Some (playerOrder !! length turnModels)
  end.

(** [createRound] of the service.  [newId] and [now] are the values the
    database gives the [serial] id and the [defaultNow()] start time of the
    inserted row; [shuffleOrder] is [options.shuffleOrder], absent when
    [None]. *)
Definition createRound (db : Database) (newId : Z) (now : Date) (draw : nat → nat)
    (gameSessionId startingParticipantId : Z) (allParticipantIds : list Z)
    (shuffleOrder : option bool) : option (Database * Z) :=
  session ← getGameSessionById db gameSessionId;
  let shuffleOrder :=
    default (randomTurnOrder (SelectGameSession.config session)) shuffleOrder in
  let latestRoundNumber := getMaxRoundNumber db gameSessionId in
  let playerOrder :=
    createPlayerOrder draw startingParticipantId allParticipantIds shuffleOrder in
  let row := SelectRound.mk newId gameSessionId (latestRoundNumber + 1) playerOrder now in
  Some (mkDatabase (store db) (gameSessionsTable db) (gameParticipantsTable db)
          (roundsTable db ++ [row]),
        newId).

(** [createPlayerTurn] of the service; [newId] is the [serial] id of the
    inserted row. *)
Definition createPlayerTurn (db : Database) (newId : Z)
    (gameSessionId roundId participantId turnOrder : Z) : Database * Z :=
  let row := SelectPlayerTurn.mk newId gameSessionId roundId participantId turnOrder in
  (mkDatabase
     (mkStore (playerTurnsTable (store db) ++ [row]) (rollsTable (store db)))
     (gameSessionsTable db) (gameParticipantsTable db) (roundsTable db),
   newId).

Record ParticipantStats : Type := mkParticipantStats {
  stats_participantId : Z;
  roundsWon : Z;
  roundsLost : Z;
  sipsDrunk : Z;
  sipsAwarded : Z
}.

(** [if (roundModel.losingParticipantId)]: an id is truthy unless it is 0. *)
Definition idTruthy (id : option Z) : bool :=
  match id with
  | Some n => bool_decide (n ≠ 0)
  | None => false
  end.

(** The body of the loop of [getParticipantStats] after the round is mapped;
    the four counters of the loop are the fields of [stats]. *)
Definition statsStep (participantId : Z) (stats : ParticipantStats)
    (roundModel : RoundModel.t) : ParticipantStats :=
  match RoundModel.status roundModel with
  | round_in_progress => stats
  | round_completed =>
      let '(roundsWon, roundsLost, sipsDrunk) :=
        if bool_decide (RoundModel.losingParticipantId roundModel = Some participantId)
        then (roundsWon stats, roundsLost stats + 1,
              sipsDrunk stats + default 0 (RoundModel.finalPenaltySips roundModel))
        else if idTruthy (RoundModel.losingParticipantId roundModel)
        then (roundsWon stats + 1, roundsLost stats, sipsDrunk stats)
        else (roundsWon stats, roundsLost stats, sipsDrunk stats) in
      let participantTurn :=
        snd <$> list_find (λ t, PlayerTurnModel.participantId t = participantId)
                  (RoundModel.turns roundModel) in
      let specialRollType := PlayerTurnModel.specialRollType <$> participantTurn in
      let sipsAwarded :=
        match participantTurn with
        | Some turn =>
            if bool_decide (specialRollType = Some stairs)
               || bool_decide (specialRollType = Some super_stairs)
            then
              let awardedSips :=
                SelectPlayerTurn.turnOrder (PlayerTurnModel.base turn)
                * (if bool_decide (specialRollType = Some super_stairs) then 2 else 1) in
              sipsAwarded stats + awardedSips
            else sipsAwarded stats
        | None => sipsAwarded stats
        end in
      mkParticipantStats (stats_participantId stats) roundsWon roundsLost sipsDrunk
        sipsAwarded
  end.

(** The loop [for (const round of rounds)]; [r] is the index of the first
    round of [rounds] in the whole list, for the clock. *)
Fixpoint statsLoop (db : Database) (clock : nat → nat → Date)
    (participantId gameSessionId : Z) (r : nat) (rounds : list SelectRound.t)
    (stats : ParticipantStats) : option ParticipantStats :=
  match rounds with
  | [] => Some stats
  | round :: rest =>
      roundModel ← roundModelOf db (clock r) round gameSessionId;
      statsLoop db clock participantId gameSessionId (S r) rest
        (statsStep participantId stats roundModel)
  end.

Definition getParticipantStats (db : Database) (clock : nat → nat → Date)
    (participantId gameSessionId : Z) : option ParticipantStats :=
  let rounds := getRoundsBySession db gameSessionId in
  statsLoop db clock participantId gameSessionId 0 rounds
    (mkParticipantStats participantId 0 0 0 0).

(** No roll of the store has an empty dice array. *)
Definition everyRollHasDice (db : Database) : Prop :=
  ∀ roll, roll ∈ rollsTable (store db) → SelectRoll.dice roll ≠ [].

(** Every roll of the store holds a Dice Set. *)
Definition everyRollValid (db : Database) : Prop :=
  ∀ roll, roll ∈ rollsTable (store db) → validRoll roll = true.

(** The database of the first worked example: one session with the four
    participants and the round played. *)
Definition example1Database : Database :=
  mkDatabase example1Store
    [ SelectGameSession.mk 1 "owner" (mkConfig "New Game" false) 100 None ]
    [ SelectGameParticipant.mk 11 1 (Some 1) registered None 101;
      SelectGameParticipant.mk 12 1 (Some 2) registered None 102;
      SelectGameParticipant.mk 13 1 None guest (Some "C") 103;
      SelectGameParticipant.mk 14 1 None guest (Some "D") 104 ]
    [ example1Round ].

(** The rounds of a session carry pairwise distinct round numbers. *)
Definition roundNumbersDistinct (db : Database) (gameSessionId : Z) : Prop :=
  NoDup (SelectRound.roundNumber
           <$> filter (λ r, SelectRound.gameSessionId r = gameSessionId) (roundsTable db)).

(** What [getCurrentRound] keeps of a round model: the ones in progress. *)
Definition inProgressOnly (roundModel : RoundModel.t) : option RoundModel.t :=
  match RoundModel.status roundModel with
  | round_in_progress => Some roundModel
  | round_completed => None
  end.

(** ** The classifier *)

(** [sorted_values] is the ascending arrangement of the faces, and the only
    one: whatever algorithm [Array.prototype.sort] runs, this is its result. *)
Lemma sorted_values_spec (dice : Dice) :
  Sorted Z.le (sorted_values dice) ∧ sorted_values dice ≡ₚ value <$> dice.
Proof.
  unfold sorted_values. split.
  - apply Sorted_merge_sort, _.
  - apply merge_sort_Permutation.
Qed.

Lemma sorted_values_unique (dice : Dice) (values : list Z) :
  Sorted Z.le values → values ≡ₚ value <$> dice → values = sorted_values dice.
Proof.
  intros Hsorted Hperm. destruct (sorted_values_spec dice) as [Hs Hp].
  apply (Sorted_unique Z.le); try done. by rewrite Hp.
Qed.

Lemma sorted_values_length dice : length (sorted_values dice) = length dice.
Proof.
  unfold sorted_values. rewrite merge_sort_Permutation. apply length_fmap.
Qed.

Lemma sorted_values_Permutation (dice dice' : Dice) :
  dice ≡ₚ dice' → sorted_values dice = sorted_values dice'.
Proof.
  intros Hp. unfold sorted_values.
  apply (Sorted_unique Z.le); try apply Sorted_merge_sort; try apply _.
  rewrite !merge_sort_Permutation. by apply fmap_Permutation.
Qed.

Lemma sorted_values_three dice :
  length dice = 3%nat → ∃ x y z, sorted_values dice = [x; y; z].
Proof.
  intros Hlen. pose proof (sorted_values_length dice) as Hs. rewrite Hlen in Hs.
  destruct (sorted_values dice) as [|x [|y [|z [|? ?]]]]; try discriminate.
  by exists x, y, z.
Qed.

Lemma strict_eq_both (x y z : Z) :
  strict_eq (Some x) (Some y) && strict_eq (Some y) (Some z)
  = bool_decide (x = y ∧ y = z).
Proof.
  unfold strict_eq. rewrite bool_decide_and.
  f_equal; apply bool_decide_ext; split; congruence.
Qed.

Lemma strict_eq_triple (x y z a b c : Z) :
  strict_eq (Some x) (Some a) && strict_eq (Some y) (Some b) && strict_eq (Some z) (Some c)
  = bool_decide ([x; y; z] = [a; b; c]).
Proof.
  unfold strict_eq. rewrite <- !bool_decide_and.
  apply bool_decide_ext. split.
  - intros [[Hx Hy] Hz]. congruence.
  - intros [= -> -> ->]. done.
Qed.

(** C3: on a dice set of three faces the classifier is the specification's
    algorithm: sort ascending, then all three equal gives three_of_a_kind,
    [1,2,3] stairs, [4,5,6] super_stairs (pattern only), [2,3,4] or [3,4,5]
    shit_stairs, anything else none.  The faces need not even be in 1..6. *)
Theorem detectSpecialRoll_classify (dice : Dice) :
  length dice = 3%nat → detectSpecialRoll dice = classify (value <$> dice).
Proof.
  intros Hlen. destruct (sorted_values_three dice Hlen) as (x & y & z & Hs).
  unfold detectSpecialRoll, classify. fold (sorted_values dice). rewrite Hs. simpl.
  by rewrite strict_eq_both, !strict_eq_triple, <- bool_decide_or.
Qed.

Lemma detectSpecialRoll_classify_witness :
  detectSpecialRoll [mkDie 3 false; mkDie 1 true; mkDie 2 false]
  = classify [3; 1; 2].
Proof. apply (detectSpecialRoll_classify [mkDie 3 false; mkDie 1 true; mkDie 2 false]). reflexivity. Defined.

(** C8: the category of a dice set does not depend on the order of its dice. *)
Theorem detectSpecialRoll_Permutation (dice dice' : Dice) :
  dice ≡ₚ dice' → detectSpecialRoll dice' = detectSpecialRoll dice.
Proof.
  intros Hp. unfold detectSpecialRoll. by rewrite (sorted_values_Permutation _ _ Hp).
Qed.

Lemma detectSpecialRoll_Permutation_witness :
  detectSpecialRoll [mkDie 1 false; mkDie 2 false; mkDie 3 false]
  = detectSpecialRoll [mkDie 3 false; mkDie 1 false; mkDie 2 false].
Proof.
  apply detectSpecialRoll_Permutation.
  eapply perm_trans; [apply perm_swap | apply perm_skip, perm_swap].
Defined.

(** ** Scores *)

Lemma calculateScore_foldl (dice : Dice) (acc : Z) :
  forallb (λ d, validFace (value d)) dice = true →
  foldl (λ sum d, number_add sum (to_number (DICE_POINTS (value d)))) (Num acc) dice
  = Num (acc + pointTotal dice).
Proof.
  revert acc. induction dice as [|d dice IH]; intros acc Hv; simpl in *.
  - f_equal. lia.
  - apply andb_prop in Hv as [Hd Hv]. unfold validFace in Hd.
    apply bool_decide_eq_true in Hd.
    assert (DICE_POINTS (value d) = Some (facePoints (value d))) as ->.
    { assert (value d = 1 ∨ value d = 2 ∨ value d = 3 ∨ value d = 4
              ∨ value d = 5 ∨ value d = 6) as Hcases by lia.
      destruct Hcases as [-> | [-> | [-> | [-> | [-> | ->]]]]]; reflexivity. }
    simpl. rewrite IH by done. f_equal. lia.
Qed.

Lemma calculateScore_valid (dice : Dice) :
  validDice dice = true → calculateScore dice = Num (pointTotal dice).
Proof.
  intros Hv. apply andb_prop in Hv as [_ Hv].
  unfold calculateScore. by rewrite calculateScore_foldl.
Qed.

Lemma facePoints_lower (face : Z) : validFace face = true → 2 ≤ facePoints face.
Proof.
  unfold validFace. intros Hf. apply bool_decide_eq_true in Hf.
  assert (face = 1 ∨ face = 2 ∨ face = 3 ∨ face = 4 ∨ face = 5 ∨ face = 6)
    as Hcases by lia.
  destruct Hcases as [-> | [-> | [-> | [-> | [-> | ->]]]]]; simpl; lia.
Qed.

Lemma pointTotal_positive (dice : Dice) : validDice dice = true → 0 < pointTotal dice.
Proof.
  intros Hv. apply andb_prop in Hv as [Hlen Hv]. apply bool_decide_eq_true in Hlen.
  destruct dice as [|d dice]; [discriminate|]. simpl in *.
  apply andb_prop in Hv as [Hd Hv]. apply facePoints_lower in Hd.
  assert (0 ≤ pointTotal dice); [|lia].
  clear -Hv. induction dice as [|e dice IH]; simpl in *; [lia|].
  apply andb_prop in Hv as [He Hv]. apply facePoints_lower in He.
  specialize (IH Hv). lia.
Qed.

(** ** The turn reducer *)

Lemma isSafeRoll_safeCategory (category : SpecialRollType) :
  isSafeRoll category = true ↔ safeCategory category.
Proof. unfold safeCategory. destruct category; compute; intuition congruence. Qed.

Lemma isSafeRoll_unsafe (category : SpecialRollType) :
  isSafeRoll category = false ↔ category = shit_stairs ∨ category = none.
Proof. destruct category; compute; intuition congruence. Qed.

Lemma mapPlayerTurn_last now turn rolls lastRoll :
  last rolls = Some lastRoll →
  let m := mapPlayerTurn now turn rolls in
  PlayerTurnModel.specialRollType m = detectSpecialRoll (SelectRoll.dice lastRoll)
  ∧ PlayerTurnModel.isSafe m = isSafeRoll (detectSpecialRoll (SelectRoll.dice lastRoll))
  ∧ PlayerTurnModel.finalScore m
    = (if isSafeRoll (detectSpecialRoll (SelectRoll.dice lastRoll)) then None
       else Some (scoreOrZero (Some (mapRoll lastRoll))))
  ∧ PlayerTurnModel.completedAt m = SelectRoll.rolledAt lastRoll.
Proof.
  intros Hlast. unfold mapPlayerTurn. simpl.
  by rewrite fmap_last, Hlast.
Qed.

Lemma scoreOrZero_valid (roll : SelectRoll.t) :
  validRoll roll = true →
  scoreOrZero (Some (mapRoll roll)) = Num (pointTotal (SelectRoll.dice roll)).
Proof.
  intros Hv. unfold scoreOrZero, mapRoll. simpl.
  rewrite calculateScore_valid by done.
  pose proof (pointTotal_positive _ Hv) as Hpos.
  destruct (pointTotal (SelectRoll.dice roll)); simpl; done || lia.
Qed.

(** No mapped turn carries [NaN] as its final score: [|| 0] replaces it. *)
Lemma mapPlayerTurn_comparable now turn rolls :
  comparable (mapPlayerTurn now turn rolls).
Proof.
  unfold comparable, mapPlayerTurn. simpl.
  destruct (isSafeRoll _); [done|]. intros [= Hnan]. revert Hnan.
  unfold scoreOrZero. destruct (last (mapRoll <$> rolls)) as [r|]; [|done].
  destruct (RollModel.score r) as [[| |]| |]; done.
Qed.

(** C2: for a turn with at least one roll, the turn is safe exactly when its
    last roll classifies as three_of_a_kind, stairs or super_stairs
    (shit_stairs and none are unsafe); a safe turn has no final score, and an
    unsafe turn whose last roll is a Dice Set has the last roll's point total
    as its final score. *)
Theorem mapPlayerTurn_safe_and_score (now : Date) (turn : SelectPlayerTurn.t)
    (rolls : list SelectRoll.t) (lastRoll : SelectRoll.t) :
  last rolls = Some lastRoll →
  let m := mapPlayerTurn now turn rolls in
  let category := detectSpecialRoll (SelectRoll.dice lastRoll) in
  PlayerTurnModel.specialRollType m = category
  ∧ (PlayerTurnModel.isSafe m = true ↔ safeCategory category)
  ∧ (PlayerTurnModel.isSafe m = false ↔ category = shit_stairs ∨ category = none)
  ∧ (PlayerTurnModel.isSafe m = true → PlayerTurnModel.finalScore m = None)
  ∧ (validDice (SelectRoll.dice lastRoll) = true →
     PlayerTurnModel.isSafe m = false →
     PlayerTurnModel.finalScore m = Some (Num (pointTotal (SelectRoll.dice lastRoll)))).
Proof.
  intros Hlast m category.
  destruct (mapPlayerTurn_last now turn rolls lastRoll Hlast) as (Hcat & Hsafe & Hscore & _).
  fold m in Hcat, Hsafe, Hscore. fold category in Hcat, Hsafe, Hscore.
  rewrite Hsafe, Hscore. repeat split.
  - done.
  - apply isSafeRoll_safeCategory.
  - apply isSafeRoll_safeCategory.
  - apply isSafeRoll_unsafe.
  - apply isSafeRoll_unsafe.
  - by intros ->.
  - intros Hv ->. by rewrite scoreOrZero_valid.
Qed.

Lemma mapPlayerTurn_safe_and_score_witness :
  PlayerTurnModel.finalScore
    (mapPlayerTurn 0 (SelectPlayerTurn.mk 1 1 1 1 1)
       [SelectRoll.mk 1 1 1 1 [mkDie 1 false; mkDie 2 false; mkDie 4 false] 50])
  = Some (Num 106).
Proof.
  apply (mapPlayerTurn_safe_and_score 0 (SelectPlayerTurn.mk 1 1 1 1 1)
           [SelectRoll.mk 1 1 1 1 [mkDie 1 false; mkDie 2 false; mkDie 4 false] 50]
           (SelectRoll.mk 1 1 1 1 [mkDie 1 false; mkDie 2 false; mkDie 4 false] 50));
    reflexivity.
Defined.

(** ** The loser of a round *)

Lemma lowerOf_cases (lowest current : PlayerTurnModel.t) :
  (number_lt (scoreOrInfinity current) (scoreOrInfinity lowest) = true
   ∧ lowerOf lowest current = current)
  ∨ (number_lt (scoreOrInfinity current) (scoreOrInfinity lowest) = false
     ∧ lowerOf lowest current = lowest).
Proof.
  unfold lowerOf.
  destruct (number_lt (scoreOrInfinity current) (scoreOrInfinity lowest)); auto.
Qed.

Lemma foldl_lowerOf_elem (rest : list PlayerTurnModel.t) (first : PlayerTurnModel.t) :
  foldl lowerOf first rest ∈ first :: rest.
Proof.
  revert first. induction rest as [|x rest IH]; intros first; simpl.
  - apply list_elem_of_here.
  - specialize (IH (lowerOf first x)).
    destruct (lowerOf_cases first x) as [[_ Heq] | [_ Heq]]; rewrite Heq in *.
    + by apply list_elem_of_further.
    + apply elem_of_cons in IH as [-> | IH].
      * apply list_elem_of_here.
      * by do 2 apply list_elem_of_further.
Qed.

(** The strict comparison never replaces the minimum by a later turn that
    is not strictly below it. *)
Lemma foldl_lowerOf_keeps (post : list PlayerTurnModel.t) (t : PlayerTurnModel.t) :
  (∀ u, u ∈ post → number_lt (scoreOrInfinity u) (scoreOrInfinity t) = false) →
  foldl lowerOf t post = t.
Proof.
  induction post as [|x post IH]; intros Hpost; simpl; [done|].
  unfold lowerOf at 2. rewrite (Hpost x) by apply list_elem_of_here.
  apply IH. intros u Hu. by apply Hpost, list_elem_of_further.
Qed.

Lemma foldl_lowerOf_earliest (pre post : list PlayerTurnModel.t)
    (first t : PlayerTurnModel.t) :
  (∀ u, u ∈ first :: pre → number_lt (scoreOrInfinity t) (scoreOrInfinity u) = true) →
  (∀ u, u ∈ post → number_lt (scoreOrInfinity u) (scoreOrInfinity t) = false) →
  foldl lowerOf first (pre ++ t :: post) = t.
Proof.
  intros Hpre Hpost. rewrite foldl_app. simpl.
  unfold lowerOf at 2. rewrite (Hpre _ (foldl_lowerOf_elem pre first)).
  by apply foldl_lowerOf_keeps.
Qed.

(** The [reduce] of [findLoserFromTurns] keeps the first turn that no later
    turn is strictly below. *)
Lemma findLoserFromTurns_earliest (pre post : list PlayerTurnModel.t)
    (t : PlayerTurnModel.t) :
  PlayerTurnModel.isSafe t = false →
  (∀ u, u ∈ pre → PlayerTurnModel.isSafe u = false →
        number_lt (scoreOrInfinity t) (scoreOrInfinity u) = true) →
  (∀ u, u ∈ post → PlayerTurnModel.isSafe u = false →
        number_lt (scoreOrInfinity u) (scoreOrInfinity t) = false) →
  findLoserFromTurns (pre ++ t :: post) = Some (PlayerTurnModel.participantId t).
Proof.
  intros Ht Hpre Hpost. unfold findLoserFromTurns.
  rewrite filter_app, filter_cons_True by done.
  assert (∀ u, u ∈ filter (λ t, PlayerTurnModel.isSafe t = false) pre →
               number_lt (scoreOrInfinity t) (scoreOrInfinity u) = true) as Hpre'.
  { intros u [Hu Hin]%list_elem_of_filter. by apply Hpre. }
  assert (∀ u, u ∈ filter (λ t, PlayerTurnModel.isSafe t = false) post →
               number_lt (scoreOrInfinity u) (scoreOrInfinity t) = false) as Hpost'.
  { intros u [Hu Hin]%list_elem_of_filter. by apply Hpost. }
  destruct (filter (λ t, PlayerTurnModel.isSafe t = false) pre) as [|first pre']; simpl.
  - by rewrite foldl_lowerOf_keeps.
  - fold (foldl lowerOf first (pre' ++ t :: filter (λ t, PlayerTurnModel.isSafe t = false) post)).
    by rewrite foldl_lowerOf_earliest.
Qed.


(** Without [NaN] the strict comparison is the strict part of a total
    order. *)
Lemma number_lt_false_trans (a b c : number) :
  b ≠ NaN → number_lt b a = false → number_lt c b = false → number_lt c a = false.
Proof.
  destruct a, b, c; simpl; intros Hb; try done;
    rewrite ?bool_decide_eq_false; try lia; try discriminate.
Qed.

Lemma number_lt_false_lt (a b c : number) :
  number_lt b a = false → number_lt b c = true → number_lt c a = false.
Proof.
  destruct a, b, c; simpl; try done;
    rewrite ?bool_decide_eq_false, ?bool_decide_eq_true; try lia; try discriminate.
Qed.

Lemma scoreOrInfinity_comparable (t : PlayerTurnModel.t) :
  comparable t → scoreOrInfinity t ≠ NaN.
Proof.
  unfold comparable, scoreOrInfinity.
  destruct (PlayerTurnModel.finalScore t) as [s|]; simpl; congruence.
Qed.

(** Among comparable turns with an unsafe one there is an earliest turn
    that attains the minimum. *)
Lemma earliestMinimum_exists (turns : list PlayerTurnModel.t) :
  Forall comparable turns →
  (∃ m, m ∈ turns ∧ PlayerTurnModel.isSafe m = false) →
  ∃ pre t post, turns = pre ++ t :: post ∧ earliestMinimum pre t post.
Proof.
  induction turns as [|x turns IH]; intros Hcmp [m [Hm Hunsafe]].
  { by apply elem_of_nil in Hm. }
  apply Forall_cons in Hcmp as [Hx Hcmp].
  destruct (decide (Exists (λ u, PlayerTurnModel.isSafe u = false) turns)) as [Hex | Hnone].
  - apply Exists_exists in Hex.
    destruct (IH Hcmp Hex) as (pre & t & post & -> & Ht & Hpre & Hpost).
    destruct (PlayerTurnModel.isSafe x) eqn:Hsafe.
    { exists (x :: pre), t, post. split; [done|]. split; [done|]. split; [|done].
      intros u [-> | Hu]%elem_of_cons Hus; [congruence | by apply Hpre]. }
    destruct (number_lt (scoreOrInfinity t) (scoreOrInfinity x)) eqn:Hlt.
    { exists (x :: pre), t, post. split; [done|]. split; [done|]. split; [|done].
      intros u [-> | Hu]%elem_of_cons Hus; [done | by apply Hpre]. }
    exists [], x, (pre ++ t :: post). split; [done|]. split; [done|]. split.
    { intros u Hu. by apply elem_of_nil in Hu. }
    assert (scoreOrInfinity t ≠ NaN) as Htn.
    { apply scoreOrInfinity_comparable. rewrite Forall_forall in Hcmp.
      apply Hcmp. apply elem_of_app. right. apply list_elem_of_here. }
    intros u [Hu | [-> | Hu]%elem_of_cons]%elem_of_app Hus.
    + apply (number_lt_false_lt _ (scoreOrInfinity t)); [done | by apply Hpre].
    + done.
    + apply (number_lt_false_trans _ (scoreOrInfinity t)); [done | done | by apply Hpost].
  - exists [], x, turns. split; [done|].
    assert (∀ u, u ∈ turns → PlayerTurnModel.isSafe u = false → False) as Hsafe.
    { intros u Hu Hus. apply Hnone, Exists_exists. eauto. }
    split; [|split].
    + apply elem_of_cons in Hm as [<- | Hm]; [done | by destruct (Hsafe m)].
    + intros u Hu. by apply elem_of_nil in Hu.
    + intros u Hu Hus. by destruct (Hsafe u).
Qed.

(** C9: the loser is the earliest turn, in the order of the input list, that
    attains the minimum final score among the unsafe turns; the strict
    comparison of the [reduce] never lets a later turn with an equal score
    replace it.  Such a turn exists whenever some turn is unsafe and no final
    score is [NaN], which no mapper produces. *)
Theorem findLoserFromTurns_earliest_minimum (turns : list PlayerTurnModel.t) :
  (∀ pre t post,
     turns = pre ++ t :: post → earliestMinimum pre t post →
     findLoserFromTurns turns = Some (PlayerTurnModel.participantId t))
  ∧ (Forall comparable turns →
     (∃ m, m ∈ turns ∧ PlayerTurnModel.isSafe m = false) →
     ∃ pre t post,
       turns = pre ++ t :: post ∧ earliestMinimum pre t post
       ∧ findLoserFromTurns turns = Some (PlayerTurnModel.participantId t)).
Proof.
  split.
  - intros pre t post -> (Ht & Hpre & Hpost). by apply findLoserFromTurns_earliest.
  - intros Hcmp Hex.
    destruct (earliestMinimum_exists turns Hcmp Hex) as (pre & t & post & -> & Hmin).
    exists pre, t, post. split; [done|]. split; [done|].
    destruct Hmin as (Ht & Hpre & Hpost). by apply findLoserFromTurns_earliest.
Qed.

Lemma findLoserFromTurns_earliest_minimum_witness :
  findLoserFromTurns (mapTurns (λ _, 0) tieTurns tieRolls) = Some 22.
Proof.
  destruct (findLoserFromTurns_earliest_minimum (mapTurns (λ _, 0) tieTurns tieRolls))
    as [Hearliest _].
  apply (Hearliest
           [mapPlayerTurn 0 (SelectPlayerTurn.mk 1 1 2 21 1) [rollOf 1 1 [1; 2; 2]]]
           (mapPlayerTurn 0 (SelectPlayerTurn.mk 2 1 2 22 2) [rollOf 2 1 [2; 2; 3]])
           [mapPlayerTurn 0 (SelectPlayerTurn.mk 3 1 2 23 3) [rollOf 3 1 [3; 2; 2]]]).
  - vm_compute. reflexivity.
  - split; [reflexivity|].
    split; intros u ->%list_elem_of_singleton _; vm_compute; reflexivity.
Defined.

(** On turns whose unsafe scores are ordinary numbers the [reduce] returns
    one of the turns, and no turn scores below it. *)
Lemma foldl_lowerOf_min (rest : list PlayerTurnModel.t) (first : PlayerTurnModel.t) :
  (∀ u, u ∈ first :: rest → ∃ s, PlayerTurnModel.finalScore u = Some (Num s)) →
  ∃ s, PlayerTurnModel.finalScore (foldl lowerOf first rest) = Some (Num s)
       ∧ ∀ u su, u ∈ first :: rest → PlayerTurnModel.finalScore u = Some (Num su) → s ≤ su.
Proof.
  revert first. induction rest as [|x rest IH]; intros first Hnum; simpl.
  - destruct (Hnum first) as [s Hs]; [apply list_elem_of_here|].
    exists s. split; [done|]. intros u su ->%list_elem_of_singleton Hu.
    rewrite Hs in Hu. injection Hu as ->. lia.
  - destruct (Hnum first) as [sf Hsf]; [apply list_elem_of_here|].
    destruct (Hnum x) as [sx Hsx]; [apply list_elem_of_further, list_elem_of_here|].
    assert (∃ s0, PlayerTurnModel.finalScore (lowerOf first x) = Some (Num s0)
                  ∧ s0 ≤ sf ∧ s0 ≤ sx) as (s0 & Hs0 & Hle1 & Hle2).
    { unfold lowerOf, scoreOrInfinity. rewrite Hsf, Hsx. simpl.
      case_bool_decide; [exists sx | exists sf]; repeat split; try done; lia. }
    destruct (IH (lowerOf first x)) as (s & Hs & Hmin).
    { intros u [-> | Hu]%elem_of_cons; [eauto|].
      apply Hnum. by do 2 apply list_elem_of_further. }
    exists s. split; [done|].
    assert (s ≤ s0) as Hss0 by (apply (Hmin (lowerOf first x)); [apply list_elem_of_here | done]).
    intros u su [-> | [-> | Hu]%elem_of_cons]%elem_of_cons Hsu.
    + rewrite Hsf in Hsu. injection Hsu as ->. lia.
    + rewrite Hsx in Hsu. injection Hsu as ->. lia.
    + apply (Hmin u); [by apply list_elem_of_further | done].
Qed.

Lemma findLoserFromTurns_all_safe (turns : list PlayerTurnModel.t) :
  (∀ m, m ∈ turns → PlayerTurnModel.isSafe m = true) → findLoserFromTurns turns = None.
Proof.
  intros Hsafe. unfold findLoserFromTurns.
  destruct (filter (λ t, PlayerTurnModel.isSafe t = false) turns) as [|first rest] eqn:Hf; [done|].
  assert (first ∈ filter (λ t, PlayerTurnModel.isSafe t = false) turns) as Hin
    by (rewrite Hf; apply list_elem_of_here).
  apply list_elem_of_filter in Hin as [Hunsafe Hin].
  rewrite (Hsafe _ Hin) in Hunsafe. discriminate.
Qed.

Lemma findLoserFromTurns_minimum (turns : list PlayerTurnModel.t) (m : PlayerTurnModel.t) :
  (∀ u, u ∈ turns → PlayerTurnModel.isSafe u = false →
        ∃ s, PlayerTurnModel.finalScore u = Some (Num s)) →
  m ∈ turns → PlayerTurnModel.isSafe m = false →
  ∃ t s, t ∈ turns ∧ unsafeWithScore t s
         ∧ findLoserFromTurns turns = Some (PlayerTurnModel.participantId t)
         ∧ ∀ u su, u ∈ turns → unsafeWithScore u su → s ≤ su.
Proof.
  intros Hnum Hm Hunsafe. unfold findLoserFromTurns.
  assert (m ∈ filter (λ t, PlayerTurnModel.isSafe t = false) turns) as Hmf
    by (by apply list_elem_of_filter).
  destruct (filter (λ t, PlayerTurnModel.isSafe t = false) turns) as [|first rest] eqn:Hf.
  { by apply elem_of_nil in Hmf. }
  assert (∀ u, u ∈ first :: rest → PlayerTurnModel.isSafe u = false ∧ u ∈ turns) as Hsub.
  { intros u Hu. rewrite <- Hf in Hu. by apply list_elem_of_filter in Hu. }
  destruct (foldl_lowerOf_min rest first) as (s & Hs & Hmin).
  { intros u Hu. destruct (Hsub u Hu). by apply Hnum. }
  destruct (Hsub _ (foldl_lowerOf_elem rest first)) as [Hlu Hlin].
  exists (foldl lowerOf first rest), s. repeat split; try done.
  intros u su Hu [Husafe Hsu]. apply (Hmin u); [|done].
  rewrite <- Hf. by apply list_elem_of_filter.
Qed.

(** ** The penalty of a round *)

Lemma getThreeOfAKindSips_bonus (face : Z) :
  validFace face = true → getThreeOfAKindSips face = threeOfAKindBonus face.
Proof.
  unfold validFace, getThreeOfAKindSips, threeOfAKindBonus.
  intros Hf%bool_decide_eq_true.
  repeat case_bool_decide; lia.
Qed.

(** A Dice Set the classifier calls three of a kind shows one face on all
    three dice. *)
Lemma detectSpecialRoll_three_of_a_kind (dice : Dice) :
  validDice dice = true → detectSpecialRoll dice = three_of_a_kind →
  ∃ d, dice !! 0%nat = Some d ∧ validFace (value d) = true
       ∧ repeatedFace dice = Some (value d).
Proof.
  intros [Hlen Hv]%andb_prop Hcat. apply bool_decide_eq_true in Hlen.
  destruct (sorted_values_three dice Hlen) as (x & y & z & Hs).
  unfold detectSpecialRoll in Hcat. rewrite Hs in Hcat. simpl in Hcat.
  rewrite strict_eq_both in Hcat.
  case_bool_decide as Hxyz; [|repeat case_match; discriminate].
  destruct Hxyz as [<- <-].
  assert (∀ d, d ∈ dice → value d = x) as Hall.
  { intros d Hd.
    assert (value d ∈ sorted_values dice) as Hin.
    { unfold sorted_values. rewrite merge_sort_Permutation.
      by apply list_elem_of_fmap_2. }
    rewrite Hs in Hin.
    repeat (apply elem_of_cons in Hin as [-> | Hin]; [done|]).
    by apply elem_of_nil in Hin. }
  destruct dice as [|d1 [|d2 [|d3 [|? ?]]]]; try discriminate.
  exists d1. simpl in Hv. apply andb_prop in Hv as [Hv1 _].
  repeat split; try done. simpl.
  rewrite (Hall d1), (Hall d2), (Hall d3) by set_solver.
  by rewrite !bool_decide_eq_true_2.
Qed.

Lemma last_forallb {A} (f : A → bool) (l : list A) (x : A) :
  forallb f l = true → last l = Some x → f x = true.
Proof.
  intros Hall Hlast. rewrite forallb_forall in Hall.
  apply Hall, list_elem_of_In, last_Some_elem_of, Hlast.
Qed.

Lemma penaltyStep_mapPlayerTurn (penaltySips : Z) now turn rolls :
  forallb validRoll rolls = true →
  let m := mapPlayerTurn now turn rolls in
  penaltyStep penaltySips m = Some (penaltySips + turnBonus m).
Proof.
  intros Hv m. unfold penaltyStep, turnBonus.
  case_bool_decide as Hcat; [|f_equal; lia].
  destruct (last rolls) as [lastRoll|] eqn:Hlast.
  - destruct (mapPlayerTurn_last now turn rolls lastRoll Hlast) as (Hc & _).
    fold m in Hc. rewrite Hc in Hcat.
    pose proof (last_forallb _ _ _ Hv Hlast) as Hvalid.
    destruct (detectSpecialRoll_three_of_a_kind _ Hvalid Hcat) as (d & Hd & Hface & Hrep).
    subst m. unfold mapPlayerTurn. simpl. rewrite fmap_last, Hlast. simpl.
    rewrite Hd, Hrep. simpl. by rewrite getThreeOfAKindSips_bonus.
  - apply last_None in Hlast. subst rolls. discriminate.
Qed.

(** The bonus of a three-of-a-kind turn is the bonus of the face its last
    roll repeats. *)
Lemma turnBonus_mapPlayerTurn now turn rolls :
  forallb validRoll rolls = true →
  let m := mapPlayerTurn now turn rolls in
  PlayerTurnModel.specialRollType m = three_of_a_kind →
  ∃ lastRoll face,
    last (PlayerTurnModel.rolls m) = Some lastRoll
    ∧ repeatedFace (SelectRoll.dice (RollModel.base lastRoll)) = Some face
    ∧ validFace face = true
    ∧ turnBonus m = threeOfAKindBonus face.
Proof.
  intros Hv m Hcat.
  destruct (last rolls) as [lastRoll|] eqn:Hlast.
  - destruct (mapPlayerTurn_last now turn rolls lastRoll Hlast) as (Hc & _).
    fold m in Hc. rewrite Hc in Hcat.
    pose proof (last_forallb _ _ _ Hv Hlast) as Hvalid.
    destruct (detectSpecialRoll_three_of_a_kind _ Hvalid Hcat) as (d & Hd & Hface & Hrep).
    exists (mapRoll lastRoll), (value d).
    unfold turnBonus. rewrite bool_decide_eq_true_2 by (by rewrite Hc).
    subst m. unfold mapPlayerTurn. simpl. rewrite fmap_last, Hlast. simpl.
    by rewrite Hrep.
  - apply last_None in Hlast. subst rolls. discriminate.
Qed.

Lemma calculatePenaltyFromTurns_foldl (turns : list PlayerTurnModel.t) (acc : Z) :
  Forall (λ m, ∀ p, penaltyStep p m = Some (p + turnBonus m)) turns →
  foldl (λ acc turn, penaltySips ← acc; penaltyStep penaltySips turn) (Some acc) turns
  = Some (acc + foldr (λ turn total, turnBonus turn + total) 0 turns).
Proof.
  intros Hall. revert acc. induction Hall as [|m turns Hm _ IH]; intros acc; simpl.
  - f_equal. lia.
  - rewrite Hm, IH. f_equal. lia.
Qed.

Lemma validRolls_elem rollsByTurnId turns turn :
  validRolls rollsByTurnId turns = true → turn ∈ turns →
  forallb validRoll (rollsOfTurn rollsByTurnId turn) = true.
Proof.
  unfold validRolls. rewrite forallb_forall. intros Hall Hin.
  by apply Hall, list_elem_of_In.
Qed.

Lemma elem_of_mapTurns clock turns rollsByTurnId m :
  m ∈ mapTurns clock turns rollsByTurnId ↔
  ∃ k turn, turns !! k = Some turn
            ∧ m = mapPlayerTurn (clock k) turn (rollsOfTurn rollsByTurnId turn).
Proof.
  unfold mapTurns. rewrite list_elem_of_lookup. split.
  - intros [k Hk]. rewrite list_lookup_imap in Hk.
    destruct (turns !! k) as [turn|] eqn:Hturn; [|discriminate].
    injection Hk as <-. eauto.
  - intros (k & turn & Hturn & ->). exists k. by rewrite list_lookup_imap, Hturn.
Qed.

Lemma calculatePenaltyFromTurns_mapTurns clock turns rollsByTurnId :
  validRolls rollsByTurnId turns = true →
  calculatePenaltyFromTurns (mapTurns clock turns rollsByTurnId)
  = Some (penaltyOf (mapTurns clock turns rollsByTurnId)).
Proof.
  intros Hv. unfold calculatePenaltyFromTurns, penaltyOf.
  apply calculatePenaltyFromTurns_foldl, Forall_forall.
  intros m (k & turn & Hturn & ->)%elem_of_mapTurns p.
  apply penaltyStep_mapPlayerTurn, (validRolls_elem _ turns); [done|].
  by eapply list_elem_of_lookup_2.
Qed.

Lemma penaltyOf_no_bonus (turns : list PlayerTurnModel.t) :
  (∀ m, m ∈ turns → PlayerTurnModel.specialRollType m ≠ three_of_a_kind) →
  penaltyOf turns = 1.
Proof.
  unfold penaltyOf. induction turns as [|m turns IH]; intros Hno; simpl; [done|].
  assert (turnBonus m = 0) as ->.
  { unfold turnBonus. rewrite bool_decide_eq_false_2; [done|]. apply Hno, list_elem_of_here. }
  rewrite Z.add_0_l. apply IH. intros u Hu. by apply Hno, list_elem_of_further.
Qed.

(** ** The round reducer *)

(** On Dice Sets [mapRound] does not throw, and every field of its result
    is known. *)
Lemma mapRound_Some clock round turns rollsByTurnId :
  validRolls rollsByTurnId turns = true →
  let turnModels := mapTurns clock turns rollsByTurnId in
  let isComplete := isRoundCompleteFromData (SelectRound.playerOrder round) (length turns) in
  ∃ rm, mapRound clock round turns rollsByTurnId = Some rm
        ∧ RoundModel.turns rm = turnModels
        ∧ RoundModel.status rm = (if isComplete then round_completed else round_in_progress)
        ∧ RoundModel.currentPenaltySips rm = penaltyOf turnModels
        ∧ RoundModel.finalPenaltySips rm
          = (if isComplete then Some (penaltyOf turnModels) else None)
        ∧ RoundModel.losingParticipantId rm
          = (if isComplete then findLoserFromTurns turnModels else None).
Proof.
  intros Hv turnModels isComplete. unfold mapRound.
  rewrite calculatePenaltyFromTurns_mapTurns by done. simpl.
  eexists. split; [reflexivity|]. simpl. done.
Qed.

Lemma mapTurns_unsafe_score clock turns rollsByTurnId m :
  validRolls rollsByTurnId turns = true →
  m ∈ mapTurns clock turns rollsByTurnId → PlayerTurnModel.isSafe m = false →
  ∃ s, PlayerTurnModel.finalScore m = Some (Num s) ∧ 0 ≤ s
       ∧ (PlayerTurnModel.rolls m ≠ [] → 0 < s).
Proof.
  intros Hv (k & turn & Hturn & ->)%elem_of_mapTurns Hunsafe.
  pose proof (validRolls_elem _ _ _ Hv (list_elem_of_lookup_2 _ _ _ Hturn)) as Hrolls.
  destruct (last (rollsOfTurn rollsByTurnId turn)) as [lastRoll|] eqn:Hlast.
  - pose proof (last_forallb _ _ _ Hrolls Hlast) as Hvalid.
    destruct (mapPlayerTurn_last (clock k) turn _ lastRoll Hlast) as (_ & Hs & Hf & _).
    rewrite Hs in Hunsafe. rewrite Hf, Hunsafe, scoreOrZero_valid by done.
    pose proof (pointTotal_positive _ Hvalid).
    eexists. split; [done|]. split; [lia|]. intros _. lia.
  - apply last_None in Hlast. rewrite Hlast. exists 0. by repeat split.
Qed.

(** C1: on Dice Sets [mapRound] returns a round model; when the turn count
    differs from the length of the player order the loser is not computed;
    when it is equal, the loser is absent if every turn is safe, and
    otherwise it is the participant of an unsafe turn whose final score is
    the minimum among the unsafe turns. *)
Theorem mapRound_losingParticipant (clock : nat → Date) (round : SelectRound.t)
    (turns : list SelectPlayerTurn.t) (rollsByTurnId : gmap Z (list SelectRoll.t)) :
  validRolls rollsByTurnId turns = true →
  ∃ rm, mapRound clock round turns rollsByTurnId = Some rm
    ∧ RoundModel.turns rm = mapTurns clock turns rollsByTurnId
    ∧ (length turns ≠ length (SelectRound.playerOrder round) →
       RoundModel.losingParticipantId rm = None)
    ∧ (length turns = length (SelectRound.playerOrder round) →
       ((∀ m, m ∈ RoundModel.turns rm → PlayerTurnModel.isSafe m = true) →
        RoundModel.losingParticipantId rm = None)
       ∧ (∀ m, m ∈ RoundModel.turns rm → PlayerTurnModel.isSafe m = false →
          ∃ t s, t ∈ RoundModel.turns rm ∧ unsafeWithScore t s
            ∧ RoundModel.losingParticipantId rm = Some (PlayerTurnModel.participantId t)
            ∧ ∀ u su, u ∈ RoundModel.turns rm → unsafeWithScore u su → s ≤ su)).
Proof.
  intros Hv.
  destruct (mapRound_Some clock round turns rollsByTurnId Hv)
    as (rm & Hrm & Hturns & _ & _ & _ & Hloser).
  exists rm. split; [done|]. split; [done|].
  unfold isRoundCompleteFromData in Hloser. rewrite Hturns, Hloser. split.
  - intros Hne. by rewrite bool_decide_eq_false_2.
  - intros Heq. rewrite bool_decide_eq_true_2 by done. split.
    + apply findLoserFromTurns_all_safe.
    + intros m Hm Hunsafe. apply (findLoserFromTurns_minimum _ m); try done.
      intros u Hu Hus.
      destruct (mapTurns_unsafe_score _ _ _ _ Hv Hu Hus) as (s & Hs & _). eauto.
Qed.

(** C4: on Dice Sets the current penalty of a round is one sip plus the
    three-of-a-kind bonus of every turn (7 for face 1, 6 for face 6, n for
    face n in 2..5), whether the round is complete or not; it is 1 when no
    turn is a three of a kind; the final penalty is the current penalty when
    the turn count equals the length of the player order and absent
    otherwise. *)
Theorem mapRound_penalty (clock : nat → Date) (round : SelectRound.t)
    (turns : list SelectPlayerTurn.t) (rollsByTurnId : gmap Z (list SelectRoll.t)) :
  validRolls rollsByTurnId turns = true →
  ∃ rm, mapRound clock round turns rollsByTurnId = Some rm
    ∧ RoundModel.turns rm = mapTurns clock turns rollsByTurnId
    ∧ RoundModel.currentPenaltySips rm = penaltyOf (RoundModel.turns rm)
    ∧ (∀ m, m ∈ RoundModel.turns rm →
            PlayerTurnModel.specialRollType m = three_of_a_kind →
            ∃ lastRoll face,
              last (PlayerTurnModel.rolls m) = Some lastRoll
              ∧ repeatedFace (SelectRoll.dice (RollModel.base lastRoll)) = Some face
              ∧ validFace face = true
              ∧ turnBonus m = threeOfAKindBonus face)
    ∧ ((∀ m, m ∈ RoundModel.turns rm →
             PlayerTurnModel.specialRollType m ≠ three_of_a_kind) →
       RoundModel.currentPenaltySips rm = 1)
    ∧ (length turns = length (SelectRound.playerOrder round) →
       RoundModel.finalPenaltySips rm = Some (RoundModel.currentPenaltySips rm))
    ∧ (length turns ≠ length (SelectRound.playerOrder round) →
       RoundModel.finalPenaltySips rm = None).
Proof.
  intros Hv.
  destruct (mapRound_Some clock round turns rollsByTurnId Hv)
    as (rm & Hrm & Hturns & _ & Hcur & Hfin & _).
  exists rm. split; [done|]. split; [done|].
  unfold isRoundCompleteFromData in Hfin. rewrite Hturns, Hcur, Hfin.
  split; [done|]. split; [|split; [|split]].
  - intros m (k & turn & Hturn & ->)%elem_of_mapTurns.
    apply turnBonus_mapPlayerTurn, (validRolls_elem _ turns); [done|].
    by eapply list_elem_of_lookup_2.
  - apply penaltyOf_no_bonus.
  - intros Heq. by rewrite bool_decide_eq_true_2.
  - intros Hne. by rewrite bool_decide_eq_false_2.
Qed.

(** ** Super stairs *)

Lemma isSuperStairsValid_three (currentDice : Dice) (previousTurnWasStairs : bool) :
  length currentDice = 3%nat →
  isSuperStairsValid currentDice previousTurnWasStairs
  = bool_decide (sorted_values currentDice = [4; 5; 6]) && previousTurnWasStairs.
Proof.
  intros Hlen. destruct (sorted_values_three currentDice Hlen) as (x & y & z & Hs).
  unfold isSuperStairsValid. rewrite Hs. simpl. by rewrite strict_eq_triple.
Qed.

(** The turn [find] returns is a turn of the queried round whose [turnOrder]
    is one less than the current one. *)
Lemma findPreviousTurn_Some db roundId gameSessionId currentTurnOrder previousTurn :
  findPreviousTurn (getPlayerTurnsByRound db roundId gameSessionId) currentTurnOrder
  = Some previousTurn →
  previousTurn ∈ playerTurnsTable db
  ∧ SelectPlayerTurn.gameSessionId previousTurn = gameSessionId
  ∧ SelectPlayerTurn.roundId previousTurn = roundId
  ∧ SelectPlayerTurn.turnOrder previousTurn = currentTurnOrder - 1.
Proof.
  unfold findPreviousTurn. intros Hfind.
  apply fmap_Some in Hfind as ([k t] & Hfind & ->). simpl.
  apply list_find_Some in Hfind as (Hk & Horder & _).
  apply list_elem_of_lookup_2 in Hk. unfold getPlayerTurnsByRound, orderBy in Hk.
  rewrite merge_sort_Permutation in Hk.
  apply list_elem_of_filter in Hk as [[Hsession Hround] Hin]. done.
Qed.

(** When no turn of the round has the previous [turnOrder], [find] returns
    nothing. *)
Lemma findPreviousTurn_None db roundId gameSessionId currentTurnOrder :
  findPreviousTurn (getPlayerTurnsByRound db roundId gameSessionId) currentTurnOrder = None ↔
  ∀ t, t ∈ playerTurnsTable db →
       SelectPlayerTurn.gameSessionId t = gameSessionId →
       SelectPlayerTurn.roundId t = roundId →
       SelectPlayerTurn.turnOrder t ≠ currentTurnOrder - 1.
Proof.
  unfold findPreviousTurn. rewrite fmap_None, list_find_None, Forall_forall.
  unfold getPlayerTurnsByRound, orderBy. split.
  - intros Hall t Hin Hsession Hround. apply Hall.
    rewrite merge_sort_Permutation. by apply list_elem_of_filter.
  - intros Hall t Hin. rewrite merge_sort_Permutation in Hin.
    apply list_elem_of_filter in Hin as [[Hsession Hround] Hin]. by apply Hall.
Qed.

(** C5: for a dice set of three faces, [isSuperStairsValid] holds exactly
    when the sorted faces are [4,5,6] and the previous turn was stairs.  The
    previous turn is the turn of the same round whose [turnOrder] is one less
    than the current one, and it was stairs when its mapped category is
    stairs.  A [4,5,6] on a turn with [turnOrder <= 1], with no previous
    turn in the round, or after a previous turn of any other category is not
    valid. *)
Theorem validateSuperStairs_iff (db : Store) (now : Date)
    (roundId currentTurnOrder gameSessionId : Z) (dice : Dice) :
  length dice = 3%nat →
  let turns := getPlayerTurnsByRound db roundId gameSessionId in
  let categoryOf previousTurn :=
    PlayerTurnModel.specialRollType
      (mapPlayerTurn now previousTurn
         (getRollsByPlayerTurn db (SelectPlayerTurn.id previousTurn) gameSessionId)) in
  let previousWasStairs :=
    wasPreviousTurnStairs db now roundId currentTurnOrder gameSessionId in
  (∀ previousTurnWasStairs,
     isSuperStairsValid dice previousTurnWasStairs = true ↔
     sorted_values dice = [4; 5; 6] ∧ previousTurnWasStairs = true)
  ∧ (validateSuperStairs db now roundId currentTurnOrder dice gameSessionId = true ↔
     sorted_values dice = [4; 5; 6] ∧ previousWasStairs = true)
  ∧ (previousWasStairs = true ↔
     1 < currentTurnOrder
     ∧ ∃ previousTurn,
         findPreviousTurn turns currentTurnOrder = Some previousTurn
         ∧ categoryOf previousTurn = stairs)
  ∧ (∀ previousTurn,
       findPreviousTurn turns currentTurnOrder = Some previousTurn →
       previousTurn ∈ playerTurnsTable db
       ∧ SelectPlayerTurn.gameSessionId previousTurn = gameSessionId
       ∧ SelectPlayerTurn.roundId previousTurn = roundId
       ∧ SelectPlayerTurn.turnOrder previousTurn = currentTurnOrder - 1)
  ∧ (currentTurnOrder ≤ 1 →
     validateSuperStairs db now roundId currentTurnOrder dice gameSessionId = false)
  ∧ ((∀ t, t ∈ playerTurnsTable db →
           SelectPlayerTurn.gameSessionId t = gameSessionId →
           SelectPlayerTurn.roundId t = roundId →
           SelectPlayerTurn.turnOrder t ≠ currentTurnOrder - 1) →
     validateSuperStairs db now roundId currentTurnOrder dice gameSessionId = false)
  ∧ (∀ previousTurn,
       findPreviousTurn turns currentTurnOrder = Some previousTurn →
       categoryOf previousTurn ≠ stairs →
       validateSuperStairs db now roundId currentTurnOrder dice gameSessionId = false).
Proof.
  intros Hlen turns categoryOf previousWasStairs.
  assert (∀ b, isSuperStairsValid dice b = true ↔ sorted_values dice = [4; 5; 6] ∧ b = true)
    as Hvalid.
  { intros b. rewrite isSuperStairsValid_three by done.
    by rewrite andb_true_iff, bool_decide_eq_true. }
  assert (previousWasStairs = false →
          validateSuperStairs db now roundId currentTurnOrder dice gameSessionId = false)
    as Hinvalid.
  { unfold validateSuperStairs. fold previousWasStairs. intros ->.
    unfold isSuperStairsValid. apply andb_false_r. }
  split; [exact Hvalid|]. split; [apply Hvalid|].
  subst previousWasStairs. unfold wasPreviousTurnStairs in *. fold turns in Hinvalid |- *.
  split; [|split; [|split; [|split]]].
  - case_bool_decide as Hfirst.
    { split; [discriminate|]. intros [Hgt _]. lia. }
    destruct (findPreviousTurn turns currentTurnOrder) as [previousTurn|] eqn:Hfind.
    + rewrite bool_decide_eq_true. fold (categoryOf previousTurn). split.
      * intros Hcat. split; [lia|]. by exists previousTurn.
      * by intros (_ & prev' & [= <-] & Hcat).
    + split; [discriminate|]. by intros (_ & prev' & [=] & _).
  - apply findPreviousTurn_Some.
  - intros Hfirst. apply Hinvalid. by rewrite bool_decide_eq_true_2.
  - intros Hnone%findPreviousTurn_None. fold turns in Hnone. apply Hinvalid.
    rewrite Hnone. by case_bool_decide.
  - intros previousTurn Hfind Hcat. apply Hinvalid. rewrite Hfind.
    case_bool_decide; [done|]. fold (categoryOf previousTurn).
    by rewrite bool_decide_eq_false_2.
Qed.

Lemma validateSuperStairs_iff_witness :
  validateSuperStairs example1Store 0 1 4 [mkDie 5 false; mkDie 6 false; mkDie 4 true] 1
  = true.
Proof.
  destruct (validateSuperStairs_iff example1Store 0 1 4 1
              [mkDie 5 false; mkDie 6 false; mkDie 4 true] eq_refl) as (_ & Hvalid & _).
  apply Hvalid. split; vm_compute; reflexivity.
Defined.

(** ** The turn order of a new round *)

Lemma insert_Permutation_delete {A} (l : list A) (i : nat) (x y : A) :
  l !! i = Some x → <[i:=y]> l ≡ₚ y :: delete i l.
Proof.
  revert i. induction l as [|a l IH]; intros [|i] Hi; simplify_eq/=.
  - done.
  - rewrite (IH i) by done. apply perm_swap.
Qed.

Lemma swap_Permutation {A} (shuffled : list A) (i j : nat) :
  swap shuffled i j ≡ₚ shuffled.
Proof.
  unfold swap.
  destruct (shuffled !! i) as [xi|] eqn:Hi; [|done].
  destruct (shuffled !! j) as [xj|] eqn:Hj; [|done].
  destruct (decide (i = j)) as [-> | Hne].
  - rewrite Hi in Hj. injection Hj as <-.
    by rewrite !list_insert_id; [| | rewrite list_insert_id].
  - assert (<[i:=xj]> shuffled !! j = Some xj) as Hj'
      by (by rewrite list_lookup_insert_ne).
    etrans; [apply (insert_Permutation_delete _ j xj xi Hj')|].
    etrans; [|symmetry; apply (delete_Permutation shuffled i xi Hi)].
    apply perm_skip, (Permutation_cons_inv (a := xj)).
    etrans; [symmetry; apply (delete_Permutation _ j xj Hj')|].
    by apply (insert_Permutation_delete _ i xi).
Qed.

Lemma shuffleLoop_Permutation {A} (draw : nat → nat) (i : nat) (shuffled : list A) :
  shuffleLoop draw i shuffled ≡ₚ shuffled.
Proof.
  revert shuffled. induction i as [|i IH]; intros shuffled; simpl; [done|].
  rewrite IH. apply swap_Permutation.
Qed.

Lemma shuffleArray_Permutation {A} (draw : nat → nat) (array : list A) :
  shuffleArray draw array ≡ₚ array.
Proof. apply shuffleLoop_Permutation. Qed.

Lemma filter_all {A} (P : A → Prop) `{!∀ x, Decision (P x)} (l : list A) :
  (∀ x, x ∈ l → P x) → filter P l = l.
Proof.
  induction l as [|a l IH]; intros Hall; [done|].
  rewrite filter_cons_True by apply Hall, list_elem_of_here.
  f_equal. apply IH. intros x Hx. by apply Hall, list_elem_of_further.
Qed.

(** Filtering the starting participant out of a duplicate-free list keeps
    what stands before and after it, in order. *)
Lemma remaining_split (startingParticipantId : Z) (pre post : list Z) :
  NoDup (pre ++ startingParticipantId :: post) →
  filter (λ id, id ≠ startingParticipantId) (pre ++ startingParticipantId :: post)
  = pre ++ post.
Proof.
  intros Hnd. apply NoDup_app in Hnd as (_ & Hpre & Hpost).
  apply NoDup_cons in Hpost as [Hpost _].
  rewrite filter_app, filter_cons_False by (intros Hs; by apply Hs).
  f_equal; apply filter_all.
  - intros x Hx ->. by apply (Hpre startingParticipantId), list_elem_of_here.
  - intros x Hx ->. done.
Qed.

(** C6: when the starting participant occurs in the duplicate-free list of
    participants, the unshuffled order is the starting participant followed
    by the others in their original order; and, shuffled or not, with every
    draw of the shuffle in range, the order is a permutation of the
    participants with the starting participant first. *)
Theorem createPlayerOrder_spec (draw : nat → nat) (startingParticipantId : Z)
    (allParticipantIds : list Z) :
  NoDup allParticipantIds →
  startingParticipantId ∈ allParticipantIds →
  drawsInRange draw →
  (∀ pre post, allParticipantIds = pre ++ startingParticipantId :: post →
     createPlayerOrder draw startingParticipantId allParticipantIds false
     = startingParticipantId :: pre ++ post)
  ∧ (∀ shuffleOrder,
       createPlayerOrder draw startingParticipantId allParticipantIds shuffleOrder
       ≡ₚ allParticipantIds
       ∧ createPlayerOrder draw startingParticipantId allParticipantIds shuffleOrder
         !! 0%nat = Some startingParticipantId).
Proof.
  intros Hnd Hin _. split.
  - intros pre post ->. unfold createPlayerOrder. by rewrite remaining_split.
  - intros shuffleOrder. split; [|done].
    apply list_elem_of_split in Hin as (pre & post & ->).
    unfold createPlayerOrder. rewrite remaining_split by done.
    rewrite <- Permutation_middle. apply perm_skip.
    destruct shuffleOrder; [apply shuffleArray_Permutation | done].
Qed.

Lemma createPlayerOrder_spec_witness :
  createPlayerOrder (λ _, 0%nat) 5 [1; 2; 3; 5] false = 5 :: [1; 2; 3] ++ []
  ∧ createPlayerOrder (λ _, 0%nat) 5 [1; 2; 3; 5] true ≡ₚ [1; 2; 3; 5].
Proof.
  assert (NoDup [1; 2; 3; 5]) as Hnd by (apply (bool_decide_unpack _); vm_compute; exact I).
  assert (5 ∈ [1; 2; 3; 5]) as Hin by (apply (bool_decide_unpack _); vm_compute; exact I).
  assert (drawsInRange (λ _, 0%nat)) as Hdraw by (intros i; lia).
  destruct (createPlayerOrder_spec (λ _, 0%nat) 5 [1; 2; 3; 5] Hnd Hin Hdraw) as [Hfixed Hperm].
  split.
  - by apply Hfixed.
  - apply Hperm.
Defined.

(** ** The mappers and the clock *)

Lemma mapPlayerTurn_clock (now1 now2 : Date) turn rolls :
  (rolls = [] → now1 = now2) →
  mapPlayerTurn now1 turn rolls = mapPlayerTurn now2 turn rolls.
Proof.
  intros Hnow. unfold mapPlayerTurn. f_equal.
  destruct (last (mapRoll <$> rolls)) as [lastRoll|] eqn:Hlast; [done|].
  apply last_None, fmap_nil_inv in Hlast. simpl. auto.
Qed.

Lemma mapTurns_clock (clock1 clock2 : nat → Date) turns rollsByTurnId :
  (∀ k turn, turns !! k = Some turn → rollsOfTurn rollsByTurnId turn = [] →
             clock1 k = clock2 k) →
  mapTurns clock1 turns rollsByTurnId = mapTurns clock2 turns rollsByTurnId.
Proof.
  intros Hclock. unfold mapTurns. apply imap_ext. intros k turn Hturn.
  apply mapPlayerTurn_clock. eauto.
Qed.

Lemma mapRound_clock (clock1 clock2 : nat → Date) round turns rollsByTurnId :
  (∀ k turn, turns !! k = Some turn → rollsOfTurn rollsByTurnId turn = [] →
             clock1 k = clock2 k) →
  mapRound clock1 round turns rollsByTurnId = mapRound clock2 round turns rollsByTurnId.
Proof.
  intros Hclock. unfold mapRound. by rewrite (mapTurns_clock clock1 clock2).
Qed.

(** C7, as the code has it: [mapRoll] reads no ambient state at all, and the
    other mappers read the wall clock only while mapping a turn without
    rolls.  Two calls with equal inputs return equal results whenever the
    clock readings taken for such turns agree; in particular the result does
    not depend on the clock when every turn has a roll. *)
Theorem mappers_read_clock_only_for_empty_turns :
  (∀ now1 now2 turn rolls,
     (rolls = [] → now1 = now2) →
     mapPlayerTurn now1 turn rolls = mapPlayerTurn now2 turn rolls)
  ∧ (∀ clock1 clock2 round turns rollsByTurnId,
       (∀ k turn, turns !! k = Some turn → rollsOfTurn rollsByTurnId turn = [] →
                  clock1 k = clock2 k) →
       mapRound clock1 round turns rollsByTurnId
       = mapRound clock2 round turns rollsByTurnId)
  ∧ (∀ clock1 clock2 session participants rounds turnsByRoundId rollsByTurnId,
       (∀ r round k turn,
          rounds !! r = Some round →
          turnsOfRound turnsByRoundId round !! k = Some turn →
          rollsOfTurn rollsByTurnId turn = [] → clock1 r k = clock2 r k) →
       mapGame clock1 session participants rounds turnsByRoundId rollsByTurnId
       = mapGame clock2 session participants rounds turnsByRoundId rollsByTurnId).
Proof.
  split; [exact mapPlayerTurn_clock|]. split; [exact mapRound_clock|].
  intros clock1 clock2 session participants rounds turnsByRoundId rollsByTurnId Hclock.
  unfold mapGame. f_equal. f_equal. apply imap_ext. intros r round Hround.
  apply mapRound_clock. eauto.
Qed.

(** The claim C7 as the specification states it fails: a turn without rolls
    takes [completedAt] from the clock. *)
Lemma mapPlayerTurn_reads_clock :
  mapPlayerTurn 0 (SelectPlayerTurn.mk 1 1 1 1 1) []
  ≠ mapPlayerTurn 1 (SelectPlayerTurn.mk 1 1 1 1 1) [].
Proof. discriminate. Qed.

(** ** Turns without rolls *)

Lemma validRolls_app rollsByTurnId turns1 turns2 :
  validRolls rollsByTurnId (turns1 ++ turns2) = true →
  validRolls rollsByTurnId turns1 = true ∧ validRolls rollsByTurnId turns2 = true.
Proof. unfold validRolls. rewrite forallb_app. apply andb_prop. Qed.

Lemma mapTurns_app clock turns1 turns2 rollsByTurnId :
  mapTurns clock (turns1 ++ turns2) rollsByTurnId
  = mapTurns clock turns1 rollsByTurnId
    ++ mapTurns (λ k, clock (length turns1 + k)%nat) turns2 rollsByTurnId.
Proof. unfold mapTurns. by rewrite imap_app. Qed.

(** C10: a turn without rolls maps to zero rolls used, category none, not
    safe, final score 0; every Dice Set scores strictly more than 0; so in a
    round of Dice Sets the first turn without rolls is the loser. *)
Theorem mapPlayerTurn_no_rolls (now : Date) (turn : SelectPlayerTurn.t) :
  let m := mapPlayerTurn now turn [] in
  PlayerTurnModel.totalRollsUsed m = 0
  ∧ PlayerTurnModel.specialRollType m = none
  ∧ PlayerTurnModel.isSafe m = false
  ∧ PlayerTurnModel.finalScore m = Some (Num 0)
  ∧ (∀ dice, validDice dice = true →
             number_lt (scoreOrInfinity m) (calculateScore dice) = true)
  ∧ (∀ clock pre post rollsByTurnId,
       validRolls rollsByTurnId (pre ++ turn :: post) = true →
       rollsOfTurn rollsByTurnId turn = [] →
       (∀ u, u ∈ pre → rollsOfTurn rollsByTurnId u ≠ []) →
       findLoserFromTurns (mapTurns clock (pre ++ turn :: post) rollsByTurnId)
       = Some (SelectPlayerTurn.participantId turn)).
Proof.
  intros m. repeat split.
  - intros dice Hv. rewrite calculateScore_valid by done.
    pose proof (pointTotal_positive dice Hv). simpl. by apply bool_decide_eq_true.
  - intros clock pre post rollsByTurnId Hv Hempty Hpre.
    apply validRolls_app in Hv as [Hvpre Hvpost].
    rewrite mapTurns_app. unfold mapTurns at 2. rewrite imap_cons, Hempty.
    fold (mapTurns (λ k, clock (length pre + S k)%nat) post rollsByTurnId).
    apply (findLoserFromTurns_earliest _ _
             (mapPlayerTurn (clock (length pre + 0)%nat) turn [])).
    + done.
    + intros u Hu Hunsafe.
      destruct (mapTurns_unsafe_score _ _ _ _ Hvpre Hu Hunsafe) as (s & Hs & _ & Hpos).
      apply elem_of_mapTurns in Hu as (k & t & Ht & ->).
      unfold scoreOrInfinity. rewrite Hs. simpl. apply bool_decide_eq_true, Hpos.
      simpl. intros Hnil%fmap_nil_inv.
      by apply (Hpre t); [eapply list_elem_of_lookup_2|].
    + intros u Hu Hunsafe.
      assert (validRolls rollsByTurnId post = true) as Hvpost'.
      { unfold validRolls in *. simpl in Hvpost. by apply andb_prop in Hvpost as [_ ?]. }
      destruct (mapTurns_unsafe_score _ _ _ _ Hvpost' Hu Hunsafe) as (s & Hs & Hnn & _).
      unfold scoreOrInfinity. rewrite Hs. simpl. apply bool_decide_eq_false. lia.
Qed.

(** ** The worked example, evaluated *)

Example example1_round :
  ∃ rm, mapRound (λ _, 0) example1Round example1Turns example1Rolls = Some rm
        ∧ RoundModel.status rm = round_completed
        ∧ RoundModel.maxRollsAllowed rm = 2
        ∧ RoundModel.currentPenaltySips rm = 4
        ∧ RoundModel.finalPenaltySips rm = Some 4
        ∧ RoundModel.losingParticipantId rm = Some 14.
Proof. eexists. split; [vm_compute; reflexivity|]. by repeat split. Qed.

Example score_examples :
  calculateScore [mkDie 1 false; mkDie 2 false; mkDie 4 false] = Num 106
  ∧ calculateScore [mkDie 2 false; mkDie 3 false; mkDie 5 false] = Num 10
  ∧ calculateScore [mkDie 6 false; mkDie 6 false; mkDie 6 false] = Num 180.
Proof. by repeat split. Qed.

Example classify_examples :
  detectSpecialRoll [mkDie 1 false; mkDie 1 false; mkDie 1 false] = three_of_a_kind
  ∧ detectSpecialRoll [mkDie 3 false; mkDie 1 false; mkDie 2 false] = stairs
  ∧ detectSpecialRoll [mkDie 4 false; mkDie 5 false; mkDie 6 false] = super_stairs
  ∧ detectSpecialRoll [mkDie 2 false; mkDie 3 false; mkDie 4 false] = shit_stairs
  ∧ detectSpecialRoll [mkDie 3 false; mkDie 4 false; mkDie 5 false] = shit_stairs
  ∧ detectSpecialRoll [mkDie 1 false; mkDie 3 false; mkDie 5 false] = none.
Proof. repeat split; vm_compute; reflexivity. Qed.

Lemma mapRound_losingParticipant_witness :
  ∃ rm, mapRound (λ _, 0) example1Round example1Turns example1Rolls = Some rm
        ∧ RoundModel.losingParticipantId rm = Some 14.
Proof.
  destruct (mapRound_losingParticipant (λ _, 0) example1Round example1Turns example1Rolls)
    as (rm & Hrm & _); [vm_compute; reflexivity|].
  exists rm. split; [exact Hrm|].
  vm_compute in Hrm. injection Hrm as <-. reflexivity.
Defined.

Lemma mapRound_penalty_witness :
  ∃ rm, mapRound (λ _, 0) example1Round example1Turns example1Rolls = Some rm
        ∧ RoundModel.currentPenaltySips rm = penaltyOf (RoundModel.turns rm)
        ∧ RoundModel.finalPenaltySips rm = Some (RoundModel.currentPenaltySips rm).
Proof.
  destruct (mapRound_penalty (λ _, 0) example1Round example1Turns example1Rolls)
    as (rm & Hrm & _ & Hcur & _ & _ & Hfin & _); [vm_compute; reflexivity|].
  exists rm. split; [exact Hrm|]. split; [exact Hcur|]. apply Hfin. reflexivity.
Defined.

Lemma mappers_read_clock_only_for_empty_turns_witness :
  mapRound (λ _, 0) example1Round example1Turns example1Rolls
  = mapRound (λ k, Z.of_nat k + 1) example1Round example1Turns example1Rolls.
Proof.
  apply mappers_read_clock_only_for_empty_turns.
  intros k turn Hturn Hempty.
  destruct k as [|[|[|[|k]]]]; simplify_eq/=; vm_compute in Hempty; discriminate.
Defined.

Lemma mapPlayerTurn_no_rolls_witness :
  findLoserFromTurns
    (mapTurns (λ _, 0)
       ([SelectPlayerTurn.mk 1 1 1 11 1] ++ SelectPlayerTurn.mk 5 1 1 15 2
        :: [SelectPlayerTurn.mk 4 1 1 14 3]) example1Rolls)
  = Some 15.
Proof.
  apply (mapPlayerTurn_no_rolls 0 (SelectPlayerTurn.mk 5 1 1 15 2)).
  - vm_compute. reflexivity.
  - vm_compute. reflexivity.
  - intros u ->%list_elem_of_singleton Hempty. vm_compute in Hempty. discriminate.
Defined.

(** ** More about scores *)

Lemma number_add_comm (a b : number) : number_add a b = number_add b a.
Proof. destruct a, b; simpl; try done. f_equal. lia. Qed.

Lemma number_add_assoc (a b c : number) :
  number_add (number_add a b) c = number_add a (number_add b c).
Proof. destruct a, b, c; simpl; try done. f_equal. lia. Qed.

Lemma calculateScore_foldl_acc (dice : Dice) (acc : number) :
  foldl (λ sum d, number_add sum (to_number (DICE_POINTS (value d)))) acc dice
  = number_add acc (calculateScore dice).
Proof.
  unfold calculateScore. revert acc.
  induction dice as [|d dice IH]; intros acc; cbn [foldl].
  - destruct acc; simpl; try done. f_equal. lia.
  - rewrite (IH (number_add acc _)), (IH (number_add (Num 0) _)).
    rewrite <- !number_add_assoc. f_equal.
    destruct acc, (to_number _); simpl; try done. f_equal. lia.
Qed.

Lemma calculateScore_cons (d : Die) (dice : Dice) :
  calculateScore (d :: dice)
  = number_add (to_number (DICE_POINTS (value d))) (calculateScore dice).
Proof.
  unfold calculateScore at 1. simpl. rewrite calculateScore_foldl_acc.
  f_equal. by destruct (to_number _).
Qed.

Lemma DICE_POINTS_Some (face : Z) :
  validFace face = true → DICE_POINTS face = Some (facePoints face).
Proof.
  unfold validFace. intros Hf%bool_decide_eq_true.
  assert (face = 1 ∨ face = 2 ∨ face = 3 ∨ face = 4 ∨ face = 5 ∨ face = 6)
    as Hcases by lia.
  destruct Hcases as [-> | [-> | [-> | [-> | [-> | ->]]]]]; reflexivity.
Qed.

Lemma DICE_POINTS_None (face : Z) :
  validFace face = false → DICE_POINTS face = None.
Proof.
  unfold validFace. intros Hf%bool_decide_eq_false.
  destruct face as [|p|p]; [done| |done].
  destruct p as [[[q|q|]|[q|q|]|]|[[q|q|]|[q|q|]|]|]; try done; lia.
Qed.

Lemma calculateScore_cases (dice : Dice) :
  (forallb (λ d, validFace (value d)) dice = true →
   calculateScore dice = Num (pointTotal dice))
  ∧ (forallb (λ d, validFace (value d)) dice = false → calculateScore dice = NaN).
Proof.
  induction dice as [|d dice [IHt IHf]]; simpl.
  - split; [done | discriminate].
  - rewrite calculateScore_cons. split.
    + intros [Hd Hdice]%andb_prop. rewrite (DICE_POINTS_Some _ Hd), (IHt Hdice). done.
    + intros [Hd | Hdice]%andb_false_iff.
      * by rewrite (DICE_POINTS_None _ Hd).
      * rewrite (IHf Hdice). by destruct (to_number _).
Qed.

(** X1: the score of a dice array of any length is the sum of the point
    values of its faces when every face is in 1..6, and [NaN] as soon as one
    face is not: a face outside the table reads [undefined], and the sum
    never recovers. *)
Theorem calculateScore_total_or_NaN (dice : Dice) :
  (forallb (λ d, validFace (value d)) dice = true →
   calculateScore dice = Num (pointTotal dice))
  ∧ (forallb (λ d, validFace (value d)) dice = false → calculateScore dice = NaN).
Proof. apply calculateScore_cases. Qed.

Lemma calculateScore_total_or_NaN_witness :
  calculateScore [mkDie 1 false; mkDie 2 false; mkDie 4 false] = Num 106
  ∧ calculateScore [mkDie 1 false; mkDie 7 false; mkDie 4 false] = NaN.
Proof.
  split.
  - by apply (calculateScore_total_or_NaN [mkDie 1 false; mkDie 2 false; mkDie 4 false]).
  - by apply (calculateScore_total_or_NaN [mkDie 1 false; mkDie 7 false; mkDie 4 false]).
Defined.

(** X2: the score does not depend on the order of the dice, whatever the
    faces are. *)
Theorem calculateScore_Permutation (dice dice' : Dice) :
  dice ≡ₚ dice' → calculateScore dice = calculateScore dice'.
Proof.
  induction 1 as [|d l l' _ IH|d e l|l l' l'' _ IH1 _ IH2].
  - done.
  - by rewrite !calculateScore_cons, IH.
  - rewrite !calculateScore_cons, <- !number_add_assoc. f_equal. apply number_add_comm.
  - by rewrite IH1.
Qed.

Lemma calculateScore_Permutation_witness :
  calculateScore [mkDie 6 false; mkDie 1 false; mkDie 3 true]
  = calculateScore [mkDie 1 false; mkDie 6 false; mkDie 3 true].
Proof. apply calculateScore_Permutation, perm_swap. Defined.

Lemma facePoints_upper (face : Z) : validFace face = true → facePoints face ≤ 100.
Proof.
  unfold validFace. intros Hf%bool_decide_eq_true.
  assert (face = 1 ∨ face = 2 ∨ face = 3 ∨ face = 4 ∨ face = 5 ∨ face = 6)
    as Hcases by lia.
  destruct Hcases as [-> | [-> | [-> | [-> | [-> | ->]]]]]; simpl; lia.
Qed.

(** X3: a Dice Set scores between 6 and 300, and a Dice Set that is not a
    three of a kind scores between 7 and 260. *)
Theorem calculateScore_bounds (dice : Dice) :
  validDice dice = true →
  ∃ s, calculateScore dice = Num s ∧ 6 ≤ s ≤ 300
       ∧ (detectSpecialRoll dice ≠ three_of_a_kind → 7 ≤ s ≤ 260).
Proof.
  intros Hv. exists (pointTotal dice). split; [by apply calculateScore_valid|].
  pose proof Hv as [Hlen Hfaces]%andb_prop. apply bool_decide_eq_true in Hlen.
  destruct dice as [|[a ka] [|[b kb] [|[c kc] [|? ?]]]]; try discriminate.
  simpl in Hfaces.
  apply andb_prop in Hfaces as [Ha [Hb [Hc _]%andb_prop]%andb_prop].
  unfold validFace in *. apply bool_decide_eq_true in Ha, Hb, Hc.
  assert (a = 1 ∨ a = 2 ∨ a = 3 ∨ a = 4 ∨ a = 5 ∨ a = 6) as Ha' by lia.
  assert (b = 1 ∨ b = 2 ∨ b = 3 ∨ b = 4 ∨ b = 5 ∨ b = 6) as Hb' by lia.
  assert (c = 1 ∨ c = 2 ∨ c = 3 ∨ c = 4 ∨ c = 5 ∨ c = 6) as Hc' by lia.
  clear Ha Hb Hc Hv Hlen.
  destruct Ha' as [-> | [-> | [-> | [-> | [-> | ->]]]]];
  destruct Hb' as [-> | [-> | [-> | [-> | [-> | ->]]]]];
  destruct Hc' as [-> | [-> | [-> | [-> | [-> | ->]]]]];
  (split; [vm_compute; split; discriminate|]);
  vm_compute; intros Hne; first [by destruct Hne | split; discriminate].
Qed.

Lemma calculateScore_bounds_witness :
  ∃ s, calculateScore [mkDie 2 false; mkDie 2 false; mkDie 3 false] = Num s ∧ 6 ≤ s ≤ 300.
Proof.
  destruct (calculateScore_bounds [mkDie 2 false; mkDie 2 false; mkDie 3 false] eq_refl)
    as (s & Hs & Hb & _).
  by exists s.
Defined.

(** ** More about the classifier *)

Lemma detectSpecialRoll_sorted (dice : Dice) (x y z : Z) :
  sorted_values dice = [x; y; z] →
  detectSpecialRoll dice
  = if bool_decide (x = y ∧ y = z) then three_of_a_kind
    else if bool_decide ([x; y; z] = [1; 2; 3]) then stairs
    else if bool_decide ([x; y; z] = [4; 5; 6]) then super_stairs
    else if bool_decide ([x; y; z] = [2; 3; 4] ∨ [x; y; z] = [3; 4; 5]) then shit_stairs
    else none.
Proof.
  intros Hs. unfold detectSpecialRoll. rewrite Hs. simpl.
  by rewrite strict_eq_both, !strict_eq_triple, <- bool_decide_or.
Qed.

Lemma sorted_values_pattern (dice : Dice) (a b c : Z) :
  a ≤ b → b ≤ c →
  sorted_values dice = [a; b; c] ↔ value <$> dice ≡ₚ [a; b; c].
Proof.
  intros Hab Hbc. split.
  - intros Hs. destruct (sorted_values_spec dice) as [_ Hp]. by rewrite <- Hp, Hs.
  - intros Hp. symmetry. apply sorted_values_unique; [|done].
    repeat constructor; done.
Qed.

Lemma sorted_values_repeated (dice : Dice) (x y z : Z) :
  sorted_values dice = [x; y; z] →
  (x = y ∧ y = z) ↔ ∃ f, value <$> dice = [f; f; f].
Proof.
  intros Hs. destruct (sorted_values_spec dice) as [_ Hp]. rewrite Hs in Hp. split.
  - intros [<- <-]. exists x.
    assert (∀ v, v ∈ value <$> dice → v = x) as Hall.
    { intros v Hv. rewrite <- Hp in Hv.
      repeat (apply elem_of_cons in Hv as [-> | Hv]; [done|]).
      by apply elem_of_nil in Hv. }
    apply Permutation_length in Hp.
    destruct (value <$> dice) as [|a [|b [|c [|? ?]]]]; try discriminate.
    rewrite (Hall a), (Hall b), (Hall c); [done | | |];
      repeat (first [apply list_elem_of_here | apply list_elem_of_further]).
  - intros [f Hf]. rewrite Hf in Hp.
    assert (∀ v, v ∈ [x; y; z] → v = f) as Hall.
    { intros v Hv. rewrite Hp in Hv.
      repeat (apply elem_of_cons in Hv as [-> | Hv]; [done|]).
      by apply elem_of_nil in Hv. }
    rewrite (Hall x), (Hall y), (Hall z); [done | | |];
      repeat (first [apply list_elem_of_here | apply list_elem_of_further]).
Qed.

(** X4: what each category means for a dice set of three faces, without the
    sort: three of a kind when the three faces are equal; otherwise stairs,
    super stairs or shit stairs when the faces are 1,2,3, or 4,5,6, or 2,3,4
    or 3,4,5 in some order; none in every other case. *)
Theorem detectSpecialRoll_meaning (dice : Dice) :
  length dice = 3%nat →
  let faces := value <$> dice in
  (detectSpecialRoll dice = three_of_a_kind ↔ ∃ f, faces = [f; f; f])
  ∧ (detectSpecialRoll dice = stairs ↔ faces ≡ₚ [1; 2; 3])
  ∧ (detectSpecialRoll dice = super_stairs ↔ faces ≡ₚ [4; 5; 6])
  ∧ (detectSpecialRoll dice = shit_stairs ↔ faces ≡ₚ [2; 3; 4] ∨ faces ≡ₚ [3; 4; 5])
  ∧ (detectSpecialRoll dice = none ↔
     ¬ ((∃ f, faces = [f; f; f]) ∨ faces ≡ₚ [1; 2; 3] ∨ faces ≡ₚ [4; 5; 6]
        ∨ faces ≡ₚ [2; 3; 4] ∨ faces ≡ₚ [3; 4; 5])).
Proof.
  intros Hlen faces. subst faces.
  destruct (sorted_values_three dice Hlen) as (x & y & z & Hs).
  rewrite (detectSpecialRoll_sorted dice x y z Hs).
  rewrite <- (sorted_values_repeated dice x y z Hs).
  rewrite <- !sorted_values_pattern by lia. rewrite Hs.
  repeat case_bool_decide; simplify_eq; intuition (try discriminate; try lia; try congruence).
Qed.

Lemma detectSpecialRoll_meaning_witness :
  detectSpecialRoll [mkDie 6 false; mkDie 4 true; mkDie 5 false] = super_stairs.
Proof.
  apply (detectSpecialRoll_meaning [mkDie 6 false; mkDie 4 true; mkDie 5 false] eq_refl).
  simpl. eapply perm_trans; [apply perm_swap | apply perm_skip, perm_swap].
Defined.

(** X5: what the classifier does on an array that is not a dice set.  Only
    the three smallest faces are looked at; an array of one or two dice is
    none; the empty array is a three of a kind, because the three reads past
    the end are all [undefined]. *)
Theorem detectSpecialRoll_other_lengths (dice : Dice) :
  (dice = [] → detectSpecialRoll dice = three_of_a_kind)
  ∧ ((0 < length dice < 3)%nat → detectSpecialRoll dice = none)
  ∧ (∀ dice' : Dice,
       take 3 (sorted_values dice) = take 3 (sorted_values dice') →
       detectSpecialRoll dice = detectSpecialRoll dice').
Proof.
  split; [by intros ->|]. split.
  - intros Hlen. pose proof (sorted_values_length dice) as Hs.
    unfold detectSpecialRoll.
    destruct (sorted_values dice) as [|x [|y [|z ?]]]; simpl in *; try lia;
      unfold strict_eq; by repeat (case_bool_decide; simplify_eq; simpl).
  - intros dice' Htake. unfold detectSpecialRoll.
    assert (∀ i, (i < 3)%nat → sorted_values dice !! i = sorted_values dice' !! i) as Hi.
    { intros i Hlt.
      rewrite <- (lookup_take_lt (sorted_values dice) 3 i) by done.
      rewrite <- (lookup_take_lt (sorted_values dice') 3 i) by done.
      by rewrite Htake. }
    by rewrite !Hi by lia.
Qed.

Lemma detectSpecialRoll_other_lengths_witness :
  detectSpecialRoll [mkDie 4 false; mkDie 6 false; mkDie 5 false; mkDie 6 false]
  = detectSpecialRoll [mkDie 4 false; mkDie 5 false; mkDie 6 false].
Proof.
  apply (detectSpecialRoll_other_lengths
           [mkDie 4 false; mkDie 6 false; mkDie 5 false; mkDie 6 false]).
  vm_compute. reflexivity.
Defined.

(** ** More about the turn reducer *)

Lemma pointTotal_nonneg (dice : Dice) :
  forallb (λ d, validFace (value d)) dice = true → 0 ≤ pointTotal dice.
Proof.
  induction dice as [|d dice IH]; simpl; [done|].
  intros [Hd Hdice]%andb_prop. apply facePoints_lower in Hd.
  specialize (IH Hdice). lia.
Qed.

Lemma scoreOrZero_nonneg (lastRoll : option SelectRoll.t) :
  ∃ s, scoreOrZero (mapRoll <$> lastRoll) = Num s ∧ 0 ≤ s.
Proof.
  destruct lastRoll as [roll|]; simpl; [|by exists 0].
  destruct (calculateScore_cases (SelectRoll.dice roll)) as [Hvalid Hinvalid].
  destruct (forallb _ (SelectRoll.dice roll)) eqn:Hfaces.
  - rewrite (Hvalid eq_refl). pose proof (pointTotal_nonneg _ Hfaces) as Hnn.
    destruct (pointTotal (SelectRoll.dice roll)) eqn:Hp; simpl; eauto; lia.
  - rewrite (Hinvalid eq_refl). simpl. by exists 0.
Qed.

(** X6: what [mapPlayerTurn] guarantees for every input, dice sets or not:
    the turn row and the roll rows are kept as they are and in order, the
    rolls used are counted, a safe turn has no final score, and the final
    score of an unsafe turn is a non-negative integer, never [NaN]. *)
Theorem mapPlayerTurn_invariants (now : Date) (turn : SelectPlayerTurn.t)
    (rolls : list SelectRoll.t) :
  let m := mapPlayerTurn now turn rolls in
  PlayerTurnModel.base m = turn
  ∧ RollModel.base <$> PlayerTurnModel.rolls m = rolls
  ∧ PlayerTurnModel.totalRollsUsed m = Z.of_nat (length rolls)
  ∧ PlayerTurnModel.isSafe m = isSafeRoll (PlayerTurnModel.specialRollType m)
  ∧ (PlayerTurnModel.isSafe m = true ↔ PlayerTurnModel.finalScore m = None)
  ∧ (PlayerTurnModel.isSafe m = false →
     ∃ s, PlayerTurnModel.finalScore m = Some (Num s) ∧ 0 ≤ s).
Proof.
  unfold mapPlayerTurn. simpl. split; [done|]. split.
  { rewrite <- list_fmap_compose. by rewrite list_fmap_id. }
  split; [by rewrite length_fmap|]. split; [done|].
  rewrite fmap_last.
  destruct (isSafeRoll _); split; try done.
  intros _. destruct (scoreOrZero_nonneg (last rolls)) as (s & -> & Hs). eauto.
Qed.

(** ** More about the loser *)

Lemma findLoserFromTurns_cases (turns : list PlayerTurnModel.t) :
  (findLoserFromTurns turns = None ↔
   ∀ m, m ∈ turns → PlayerTurnModel.isSafe m = true)
  ∧ (∀ p, findLoserFromTurns turns = Some p →
          ∃ t, t ∈ turns ∧ PlayerTurnModel.isSafe t = false
               ∧ PlayerTurnModel.participantId t = p).
Proof.
  split; [split; [|apply findLoserFromTurns_all_safe]|].
  - unfold findLoserFromTurns. intros Hnone m Hm.
    destruct (PlayerTurnModel.isSafe m) eqn:Hsafe; [done|].
    assert (m ∈ filter (λ t, PlayerTurnModel.isSafe t = false) turns) as Hin
      by (by apply list_elem_of_filter).
    destruct (filter _ turns); [by apply elem_of_nil in Hin | discriminate].
  - unfold findLoserFromTurns. intros p Hp.
    destruct (filter (λ t, PlayerTurnModel.isSafe t = false) turns)
      as [|first rest] eqn:Hf; [discriminate|].
    injection Hp as <-. exists (foldl lowerOf first rest).
    pose proof (foldl_lowerOf_elem rest first) as Hin. rewrite <- Hf in Hin.
    apply list_elem_of_filter in Hin as [Hunsafe Hin]. done.
Qed.

(** X7: [findLoserFromTurns] returns nothing exactly when every turn is
    safe, and a participant it returns always owns an unsafe turn of the
    list. *)
Theorem findLoserFromTurns_result (turns : list PlayerTurnModel.t) :
  (findLoserFromTurns turns = None ↔
   ∀ m, m ∈ turns → PlayerTurnModel.isSafe m = true)
  ∧ (∀ p, findLoserFromTurns turns = Some p →
          ∃ t, t ∈ turns ∧ PlayerTurnModel.isSafe t = false
               ∧ PlayerTurnModel.participantId t = p).
Proof. apply findLoserFromTurns_cases. Qed.

(** ** More about the penalty *)

Lemma penaltyStep_shift (p k : Z) (turn : PlayerTurnModel.t) :
  penaltyStep (p + k) turn = (λ q, q + k) <$> penaltyStep p turn.
Proof.
  unfold penaltyStep. case_bool_decide; [|done].
  destruct (last _) as [lastRoll|]; simpl; [|done].
  destruct (_ !! 0%nat) as [die|]; simpl; [|done]. f_equal. lia.
Qed.

Lemma calculatePenaltyFromTurns_shift (turns : list PlayerTurnModel.t) (p k : Z) :
  foldl (λ acc turn, penaltySips ← acc; penaltyStep penaltySips turn) (Some (p + k)) turns
  = (λ q, q + k) <$>
    foldl (λ acc turn, penaltySips ← acc; penaltyStep penaltySips turn) (Some p) turns.
Proof.
  induction turns as [|turn turns IH] using rev_ind; [done|].
  rewrite !foldl_snoc, IH.
  destruct (foldl _ (Some p) turns) as [q|]; simpl; [|done].
  apply penaltyStep_shift.
Qed.

Lemma calculatePenaltyFromTurns_foldl_None (turns : list PlayerTurnModel.t) :
  foldl (λ acc turn, penaltySips ← acc; penaltyStep penaltySips turn) None turns = None.
Proof. by induction turns. Qed.

Lemma calculatePenaltyFromTurns_concat (turns1 turns2 : list PlayerTurnModel.t) :
  calculatePenaltyFromTurns (turns1 ++ turns2)
  = p1 ← calculatePenaltyFromTurns turns1;
    p2 ← calculatePenaltyFromTurns turns2;
    Some (p1 + p2 - 1).
Proof.
  unfold calculatePenaltyFromTurns. rewrite foldl_app.
  destruct (foldl _ (Some 1) turns1) as [p1|]; simpl.
  - replace p1 with (1 + (p1 - 1)) at 1 by lia.
    rewrite calculatePenaltyFromTurns_shift.
    destruct (foldl _ (Some 1) turns2) as [p2|]; simpl; [|done]. f_equal. lia.
  - apply calculatePenaltyFromTurns_foldl_None.
Qed.


(** ** More about the round reducer *)

(** A step of the penalty loop throws on a three-of-a-kind turn whose last
    roll is missing or has no die, whatever the penalty so far. *)
Lemma penaltyStep_None (p : Z) (turn : PlayerTurnModel.t) :
  penaltyStep p turn = None ↔
  PlayerTurnModel.specialRollType turn = three_of_a_kind
  ∧ ∀ lastRoll, last (PlayerTurnModel.rolls turn) = Some lastRoll →
                SelectRoll.dice (RollModel.base lastRoll) = [].
Proof.
  unfold penaltyStep. case_bool_decide as Hcat; [|split; [discriminate | by intros [? _]]].
  destruct (last (PlayerTurnModel.rolls turn)) as [lastRoll|]; simpl.
  - destruct (SelectRoll.dice (RollModel.base lastRoll)) as [|die dice] eqn:Hdice; simpl.
    + split; [|done]. intros _. split; [done|]. by intros ? [= <-].
    + split; [discriminate|]. intros [_ Hempty].
      specialize (Hempty lastRoll eq_refl). congruence.
  - split; [|done]. intros _. split; [done|]. intros ? [=].
Qed.

Lemma calculatePenaltyFromTurns_None (turns : list PlayerTurnModel.t) :
  calculatePenaltyFromTurns turns = None ↔
  ∃ turn, turn ∈ turns ∧ penaltyStep 0 turn = None.
Proof.
  induction turns as [|turn turns IH] using rev_ind.
  - split; [discriminate|]. intros (turn & Hin & _). by apply elem_of_nil in Hin.
  - pose proof (calculatePenaltyFromTurns_concat turns [turn]) as Happ.
    rewrite Happ. clear Happ.
    destruct (calculatePenaltyFromTurns turns) as [p1|] eqn:Hp1; simpl.
    + unfold calculatePenaltyFromTurns at 1. simpl.
      replace 1 with (0 + 1) at 1 by lia. rewrite penaltyStep_shift.
      destruct (penaltyStep 0 turn) as [q|] eqn:Hq; simpl.
      * split; [discriminate|]. intros (t & [Hin | ->%list_elem_of_singleton]%elem_of_app & Ht).
        -- assert (Some p1 = None) as Habs by (apply IH; eauto). discriminate.
        -- congruence.
      * split; [|done]. intros _. exists turn. split; [|done].
        apply elem_of_app. right. apply list_elem_of_here.
    + split; [|done]. intros _.
      destruct IH as [IH _]. destruct (IH eq_refl) as (t & Hin & Ht).
      exists t. split; [|done]. apply elem_of_app. by left.
Qed.

Lemma mapPlayerTurn_penaltyStep_None now turn rolls :
  penaltyStep 0 (mapPlayerTurn now turn rolls) = None ↔
  ∃ lastRoll, last rolls = Some lastRoll ∧ SelectRoll.dice lastRoll = [].
Proof.
  rewrite penaltyStep_None.
  destruct (last rolls) as [lastRoll|] eqn:Hlast.
  - destruct (mapPlayerTurn_last now turn rolls lastRoll Hlast) as (Hcat & _).
    rewrite Hcat. unfold mapPlayerTurn. simpl. rewrite fmap_last, Hlast. simpl. split.
    + intros [_ Hempty]. exists lastRoll. split; [done|]. by apply (Hempty (mapRoll lastRoll)).
    + intros (r & [= <-] & Hempty). rewrite Hempty. split; [done|]. by intros ? [= <-].
  - apply last_None in Hlast. subst rolls. split.
    + by intros [[=] _].
    + by intros (r & [=] & _).
Qed.

Lemma mapRound_None_iff (clock : nat → Date) (round : SelectRound.t)
    (turns : list SelectPlayerTurn.t) (rollsByTurnId : gmap Z (list SelectRoll.t)) :
  mapRound clock round turns rollsByTurnId = None ↔
  ∃ turn lastRoll,
    turn ∈ turns ∧ last (rollsOfTurn rollsByTurnId turn) = Some lastRoll
    ∧ SelectRoll.dice lastRoll = [].
Proof.
  assert (mapRound clock round turns rollsByTurnId = None ↔
          calculatePenaltyFromTurns (mapTurns clock turns rollsByTurnId) = None) as ->.
  { unfold mapRound. destruct (calculatePenaltyFromTurns _); simpl; done. }
  rewrite calculatePenaltyFromTurns_None. split.
  - intros (m & (k & turn & Hturn & ->)%elem_of_mapTurns & Hm).
    apply mapPlayerTurn_penaltyStep_None in Hm as (lastRoll & Hlast & Hempty).
    exists turn, lastRoll. split; [by eapply list_elem_of_lookup_2 | done].
  - intros (turn & lastRoll & Hin & Hlast & Hempty).
    apply list_elem_of_lookup in Hin as [k Hk].
    exists (mapPlayerTurn (clock k) turn (rollsOfTurn rollsByTurnId turn)). split.
    + apply elem_of_mapTurns. eauto.
    + apply mapPlayerTurn_penaltyStep_None. eauto.
Qed.


(** X9: [mapRound] throws exactly when the last roll of one of the turns
    has no dice: the classifier calls the empty array a three of a kind, and
    the penalty loop then reads the face of its first die. *)
Theorem mapRound_throws_iff (clock : nat → Date) (round : SelectRound.t)
    (turns : list SelectPlayerTurn.t) (rollsByTurnId : gmap Z (list SelectRoll.t)) :
  mapRound clock round turns rollsByTurnId = None ↔
  ∃ turn lastRoll,
    turn ∈ turns ∧ last (rollsOfTurn rollsByTurnId turn) = Some lastRoll
    ∧ SelectRoll.dice lastRoll = [].
Proof. apply mapRound_None_iff. Qed.

Lemma mapRound_throws_iff_witness :
  mapRound (λ _, 0) example1Round [SelectPlayerTurn.mk 1 1 1 11 1]
    {[ 1 := [SelectRoll.mk 1 1 1 1 [] 0] ]} = None.
Proof.
  apply mapRound_throws_iff.
  exists (SelectPlayerTurn.mk 1 1 1 11 1), (SelectRoll.mk 1 1 1 1 [] 0).
  split; [apply list_elem_of_here|]. split; reflexivity.
Defined.

Lemma turnBonus_bounds now turn rolls :
  forallb validRoll rolls = true →
  0 ≤ turnBonus (mapPlayerTurn now turn rolls) ≤ 7.
Proof.
  intros Hv.
  destruct (decide (PlayerTurnModel.specialRollType (mapPlayerTurn now turn rolls)
                    = three_of_a_kind)) as [Hcat | Hcat].
  - destruct (turnBonus_mapPlayerTurn now turn rolls Hv Hcat)
      as (lastRoll & face & _ & _ & Hface & ->).
    unfold validFace in Hface. apply bool_decide_eq_true in Hface.
    unfold threeOfAKindBonus. repeat case_bool_decide; lia.
  - unfold turnBonus. rewrite bool_decide_eq_false_2 by done. lia.
Qed.

Lemma penaltyOf_mapTurns_bounds clock turns rollsByTurnId :
  validRolls rollsByTurnId turns = true →
  1 ≤ penaltyOf (mapTurns clock turns rollsByTurnId) ≤ 1 + 7 * Z.of_nat (length turns).
Proof.
  intros Hv. unfold penaltyOf.
  assert (0 ≤ foldr (λ turn total, turnBonus turn + total) 0
                (mapTurns clock turns rollsByTurnId) ≤ 7 * Z.of_nat (length turns));
    [|lia].
  revert clock. induction turns as [|turn turns IH]; intros clock; [simpl; lia|].
  apply (validRolls_app _ [turn] turns) in Hv as [Hturn Hturns].
  unfold mapTurns. rewrite imap_cons. cbn [foldr].
  match goal with
  | |- context [imap ?f turns] =>
      change (imap f turns) with (mapTurns (clock ∘ S) turns rollsByTurnId)
  end.
  specialize (IH Hturns (clock ∘ S)).
  unfold validRolls in Hturn. simpl in Hturn. rewrite andb_true_r in Hturn.
  pose proof (turnBonus_bounds (clock 0%nat) turn _ Hturn).
  rewrite length_cons. lia.
Qed.

(** X10: on Dice Sets the penalty of a round is at least the base sip and at
    most seven sips more per turn. *)
Theorem mapRound_penalty_bounds (clock : nat → Date) (round : SelectRound.t)
    (turns : list SelectPlayerTurn.t) (rollsByTurnId : gmap Z (list SelectRoll.t)) :
  validRolls rollsByTurnId turns = true →
  ∃ rm, mapRound clock round turns rollsByTurnId = Some rm
        ∧ 1 ≤ RoundModel.currentPenaltySips rm ≤ 1 + 7 * Z.of_nat (length turns).
Proof.
  intros Hv.
  destruct (mapRound_Some clock round turns rollsByTurnId Hv)
    as (rm & Hrm & _ & _ & Hcur & _).
  exists rm. split; [done|]. rewrite Hcur. by apply penaltyOf_mapTurns_bounds.
Qed.

Lemma mapRound_penalty_bounds_witness :
  ∃ rm, mapRound (λ _, 0) example1Round example1Turns example1Rolls = Some rm
        ∧ 1 ≤ RoundModel.currentPenaltySips rm ≤ 1 + 7 * Z.of_nat (length example1Turns).
Proof.
  apply mapRound_penalty_bounds. vm_compute. reflexivity.
Defined.

Lemma mapRound_inv clock round turns rollsByTurnId rm :
  mapRound clock round turns rollsByTurnId = Some rm →
  let turnModels := mapTurns clock turns rollsByTurnId in
  let isComplete := isRoundCompleteFromData (SelectRound.playerOrder round) (length turns) in
  rm = RoundModel.mk round turnModels
         (if isComplete then round_completed else round_in_progress)
         (getStartingParticipant (SelectRound.playerOrder round))
         (match turnModels with
          | first :: _ => getMaxRollsFromFirstTurn (PlayerTurnModel.rolls first)
          | [] => 3
          end)
         (RoundModel.currentPenaltySips rm)
         (if isComplete then Some (RoundModel.currentPenaltySips rm) else None)
         (if isComplete then findLoserFromTurns turnModels else None)
         (if isComplete then PlayerTurnModel.completedAt <$> last turnModels else None).
Proof.
  unfold mapRound. intros Hrm.
  destruct (calculatePenaltyFromTurns _) as [p|]; simpl in Hrm; [|discriminate].
  by injection Hrm as <-.
Qed.




Lemma mapTurns_rolls_ext clock turns (rolls1 rolls2 : gmap Z (list SelectRoll.t)) :
  (∀ turn, turn ∈ turns →
           rolls1 !! SelectPlayerTurn.id turn = rolls2 !! SelectPlayerTurn.id turn) →
  mapTurns clock turns rolls1 = mapTurns clock turns rolls2.
Proof.
  intros Hsame. unfold mapTurns. apply imap_ext. intros k turn Hturn.
  unfold rollsOfTurn. by rewrite (Hsame turn) by (by eapply list_elem_of_lookup_2).
Qed.

Lemma mapRound_rolls_ext clock round turns (rolls1 rolls2 : gmap Z (list SelectRoll.t)) :
  (∀ turn, turn ∈ turns →
           rolls1 !! SelectPlayerTurn.id turn = rolls2 !! SelectPlayerTurn.id turn) →
  mapRound clock round turns rolls1 = mapRound clock round turns rolls2.
Proof.
  intros Hsame. unfold mapRound. by rewrite (mapTurns_rolls_ext _ _ rolls1 rolls2).
Qed.

(** X12: [mapRound] keeps every row: the turn rows of the model are the
    input turns, in order, and the roll rows of each turn model are the rolls
    the map holds for that turn, in order.  The map is read at the ids of the
    turns only, so rolls filed under other turns do not change the result. *)
Theorem mapRound_keeps_rows (clock : nat → Date) (round : SelectRound.t)
    (turns : list SelectPlayerTurn.t) (rollsByTurnId : gmap Z (list SelectRoll.t))
    (rm : RoundModel.t) :
  mapRound clock round turns rollsByTurnId = Some rm →
  PlayerTurnModel.base <$> RoundModel.turns rm = turns
  ∧ (∀ k m, RoundModel.turns rm !! k = Some m →
       RollModel.base <$> PlayerTurnModel.rolls m
       = rollsOfTurn rollsByTurnId (PlayerTurnModel.base m))
  ∧ (∀ others : gmap Z (list SelectRoll.t),
       (∀ turn, turn ∈ turns →
                others !! SelectPlayerTurn.id turn
                = rollsByTurnId !! SelectPlayerTurn.id turn) →
       mapRound clock round turns others = Some rm).
Proof.
  intros Hrm. pose proof (mapRound_inv _ _ _ _ _ Hrm) as Heq. simpl in Heq.
  split; [|split].
  - rewrite Heq. simpl. unfold mapTurns. rewrite fmap_imap.
    apply list_eq. intros k. rewrite list_lookup_imap.
    by destruct (turns !! k).
  - intros k m. rewrite Heq. simpl. unfold mapTurns. rewrite list_lookup_imap.
    destruct (turns !! k) as [turn|]; [|discriminate]. intros [= <-]. simpl.
    rewrite <- list_fmap_compose. apply list_fmap_id.
  - intros others Hsame. by rewrite (mapRound_rolls_ext _ _ _ others rollsByTurnId).
Qed.

Lemma mapRound_keeps_rows_witness :
  ∃ rm, mapRound (λ _, 0) example1Round example1Turns example1Rolls = Some rm
        ∧ PlayerTurnModel.base <$> RoundModel.turns rm = example1Turns.
Proof.
  destruct (mapRound (λ _, 0) example1Round example1Turns example1Rolls) as [rm|] eqn:Hrm;
    [|vm_compute in Hrm; discriminate].
  exists rm. split; [done|]. by apply (mapRound_keeps_rows _ _ _ _ rm Hrm).
Defined.

(** ** The game reducer *)

Lemma mapGame_cases (clock : nat → nat → Date) (session : SelectGameSession.t)
    (participants : list SelectGameParticipant.t) (rounds : list SelectRound.t)
    (turnsByRoundId : gmap Z (list SelectPlayerTurn.t))
    (rollsByTurnId : gmap Z (list SelectRoll.t)) :
  let roundModel r round :=
    mapRound (clock r) round (turnsOfRound turnsByRoundId round) rollsByTurnId in
  (mapGame clock session participants rounds turnsByRoundId rollsByTurnId = None ↔
   ∃ r round, rounds !! r = Some round ∧ roundModel r round = None)
  ∧ (∀ gm,
       mapGame clock session participants rounds turnsByRoundId rollsByTurnId = Some gm →
       GameModel.base gm = session
       ∧ GameModel.participants gm = participants
       ∧ length (GameModel.rounds gm) = length rounds
       ∧ (∀ r round, rounds !! r = Some round →
            roundModel r round = GameModel.rounds gm !! r)
       ∧ GameModel.status gm
         = match SelectGameSession.completedAt session, rounds with
           | Some _, _ => game_completed
           | None, _ :: _ => game_in_progress
           | None, [] => game_waiting
           end
       ∧ GameModel.startedAt gm = SelectRound.startedAt <$> head rounds).
Proof.
  intros roundModel. unfold mapGame.
  repeat match goal with
  | |- context [mapM id ?l] =>
      progress change l with (imap roundModel rounds)
  end.
  split.
  - destruct (mapM id (imap roundModel rounds)) as [models|] eqn:Hmap; simpl.
    + split; [discriminate|]. intros (r & round & Hround & Hnone).
      apply mapM_Some in Hmap.
      assert (imap roundModel rounds !! r = Some None) as Hr
        by (by rewrite list_lookup_imap, Hround, <- Hnone).
      destruct (Forall2_lookup_l _ _ _ _ _ Hmap Hr) as (y & _ & Hy). simpl in Hy. discriminate.
    + split; [|done]. intros _. apply mapM_None, Exists_exists in Hmap as (o & Ho & Hnone).
      apply list_elem_of_lookup in Ho as [r Hr]. rewrite list_lookup_imap in Hr.
      destruct (rounds !! r) as [round|] eqn:Hround; [|discriminate].
      injection Hr as <-. eauto.
  - intros gm Hgm.
    destruct (mapM id (imap roundModel rounds)) as [models|] eqn:Hmap; [|discriminate].
    simpl in Hgm. injection Hgm as <-. simpl. apply mapM_Some in Hmap.
    pose proof (Forall2_length _ _ _ Hmap) as Hlen. rewrite length_imap in Hlen.
    assert (∀ r round, rounds !! r = Some round → roundModel r round = models !! r) as Hr.
    { intros r round Hround.
      assert (imap roundModel rounds !! r = Some (roundModel r round)) as Hi
        by (by rewrite list_lookup_imap, Hround).
      destruct (Forall2_lookup_l _ _ _ _ _ Hmap Hi) as (y & -> & Hy). done. }
    repeat split; try done.
    + destruct (SelectGameSession.completedAt session); [done|].
      destruct rounds, models; simpl in *; try done; lia.
    + destruct rounds as [|round rounds']; simpl.
      * by destruct models.
      * specialize (Hr 0%nat round eq_refl). rewrite <- Hr.
        destruct (roundModel 0%nat round) as [rm|] eqn:Hrm; simpl.
        -- by rewrite (mapRound_inv _ _ _ _ _ Hrm).
        -- destruct models; [discriminate|]. simpl in Hr. discriminate.
Qed.

(** X13: [mapGame] throws exactly when [mapRound] throws for one of the
    rounds.  Otherwise the session and the participants are passed through,
    there is one round model per round, in order, each the [mapRound] of its
    round with the turns filed under its id; the status is completed when
    the session has a completion time, else in progress when there is a
    round, else waiting; and the start time is that of the first round. *)
Theorem mapGame_result (clock : nat → nat → Date) (session : SelectGameSession.t)
    (participants : list SelectGameParticipant.t) (rounds : list SelectRound.t)
    (turnsByRoundId : gmap Z (list SelectPlayerTurn.t))
    (rollsByTurnId : gmap Z (list SelectRoll.t)) :
  let roundModel r round :=
    mapRound (clock r) round (turnsOfRound turnsByRoundId round) rollsByTurnId in
  (mapGame clock session participants rounds turnsByRoundId rollsByTurnId = None ↔
   ∃ r round, rounds !! r = Some round ∧ roundModel r round = None)
  ∧ (∀ gm,
       mapGame clock session participants rounds turnsByRoundId rollsByTurnId = Some gm →
       GameModel.base gm = session
       ∧ GameModel.participants gm = participants
       ∧ length (GameModel.rounds gm) = length rounds
       ∧ (∀ r round, rounds !! r = Some round →
            roundModel r round = GameModel.rounds gm !! r)
       ∧ GameModel.status gm
         = match SelectGameSession.completedAt session, rounds with
           | Some _, _ => game_completed
           | None, _ :: _ => game_in_progress
           | None, [] => game_waiting
           end
       ∧ GameModel.startedAt gm = SelectRound.startedAt <$> head rounds).
Proof. apply mapGame_cases. Qed.

(** ** More about the shuffle *)

Lemma length_swap {A} (l : list A) (i j : nat) : length (swap l i j) = length l.
Proof.
  unfold swap. destruct (l !! i), (l !! j); try done. by rewrite !length_insert.
Qed.

Lemma length_shuffleLoop {A} (draw : nat → nat) (i : nat) (l : list A) :
  length (shuffleLoop draw i l) = length l.
Proof.
  revert l. induction i as [|i IH]; intros l; simpl; [done|].
  by rewrite IH, length_swap.
Qed.

Lemma swap_app {A} (l k : list A) (i j : nat) :
  (i < length l)%nat → (j < length l)%nat → swap (l ++ k) i j = swap l i j ++ k.
Proof.
  intros Hi Hj. unfold swap. rewrite !lookup_app_l by done.
  destruct (lookup_lt_is_Some_2 l i Hi) as [xi ->].
  destruct (lookup_lt_is_Some_2 l j Hj) as [xj ->].
  rewrite insert_app_l by done. rewrite insert_app_l by (by rewrite length_insert). done.
Qed.

Lemma shuffleLoop_app {A} (draw : nat → nat) (i : nat) (l k : list A) :
  (∀ i', (i' ≤ i)%nat → (draw i' ≤ i')%nat) → (i < length l)%nat →
  shuffleLoop draw i (l ++ k) = shuffleLoop draw i l ++ k.
Proof.
  revert l. induction i as [|i IH]; intros l Hdraw Hi; simpl; [done|].
  pose proof (Hdraw (S i) (le_n _)).
  rewrite swap_app by lia. apply IH; [|rewrite length_swap; lia].
  intros i' Hi'. apply Hdraw. lia.
Qed.

Lemma shuffleLoop_ext {A} (draw1 draw2 : nat → nat) (i : nat) (l : list A) :
  (∀ i', (i' ≤ i)%nat → draw1 i' = draw2 i') →
  shuffleLoop draw1 i l = shuffleLoop draw2 i l.
Proof.
  revert l. induction i as [|i IH]; intros l Hsame; simpl; [done|].
  rewrite (Hsame (S i)) by done. apply IH. intros i' Hi'. apply Hsame. lia.
Qed.

Lemma swap_last {A} (l : list A) (y : A) (j : nat) :
  l !! j = Some y → l ≠ [] →
  ∃ l1, swap l (pred (length l)) j = l1 ++ [y] ∧ length l1 = pred (length l).
Proof.
  intros Hj Hne.
  assert (pred (length l) < length l)%nat as Hlast by (destruct l; simpl; [done | lia]).
  destruct (lookup_lt_is_Some_2 l _ Hlast) as [xi Hxi].
  unfold swap. rewrite Hxi, Hj.
  set (l2 := <[j:=xi]> (<[pred (length l):=y]> l)).
  assert (length l2 = length l) as Hlen by (unfold l2; by rewrite !length_insert).
  assert (l2 !! pred (length l) = Some y) as Hy.
  { unfold l2. destruct (decide (j = pred (length l))) as [-> | Hne'].
    - rewrite list_lookup_insert_eq by (by rewrite length_insert). congruence.
    - rewrite list_lookup_insert_ne by done.
      by rewrite list_lookup_insert_eq. }
  exists (take (pred (length l)) l2). split.
  - rewrite <- Hlen in Hy. rewrite <- last_lookup in Hy.
    apply last_Some in Hy as [l' Hl']. rewrite Hl' at 1.
    rewrite <- Hlen, Hl', length_app. simpl.
    rewrite Nat.add_1_r. simpl. by rewrite take_app_length.
  - rewrite length_take. lia.
Qed.

Lemma shuffleLoop_reaches {A} (n : nat) (l l' : list A) :
  length l = S n → l ≡ₚ l' →
  ∃ draw, drawsInRange draw ∧ shuffleLoop draw n l = l'.
Proof.
  revert l l'. induction n as [|n IH]; intros l l' Hlen Hperm.
  - exists (λ _, 0%nat). split; [intros i; lia|]. simpl.
    destruct l as [|x [|? ?]]; try discriminate.
    by apply Permutation_singleton_l.
  - assert (length l' = S (S n)) as Hlen' by (by rewrite <- Hperm).
    destruct (last l') as [y|] eqn:Hlast;
      [|apply last_None in Hlast; subst l'; discriminate].
    apply last_Some in Hlast as [l0' ->].
    assert (y ∈ l) as Hy by (rewrite Hperm; apply elem_of_app; right; apply list_elem_of_here).
    apply list_elem_of_lookup in Hy as [j Hj].
    pose proof (lookup_lt_Some _ _ _ Hj) as Hjlt.
    destruct (swap_last l y j Hj) as (l1 & Hswap & Hlen1); [by destruct l|].
    rewrite Hlen in Hswap, Hlen1. simpl in Hswap, Hlen1.
    destruct (IH l1 l0' Hlen1) as (draw' & Hrange' & Hloop).
    { apply (Permutation_app_inv_r [y]).
      rewrite <- Hswap, swap_Permutation. done. }
    exists (λ i, if decide (i = S n) then j else draw' i). split.
    + intros i. case_decide; [subst; lia | apply Hrange'].
    + simpl. rewrite decide_True by done. rewrite Hswap.
      rewrite shuffleLoop_app.
      * f_equal. rewrite <- Hloop. apply shuffleLoop_ext.
        intros i' Hi'. by rewrite decide_False by lia.
      * intros i' Hi'. rewrite decide_False by lia. apply Hrange'.
      * lia.
Qed.

(** X14: the shuffle is a Fisher-Yates shuffle: with every draw in range
    its result is a permutation of the array, and every permutation of the
    array is the result for some draws in range. *)
Theorem shuffleArray_permutes_and_reaches {A} (array array' : list A) :
  array ≡ₚ array' ↔ ∃ draw, drawsInRange draw ∧ shuffleArray draw array = array'.
Proof.
  split.
  - intros Hperm. unfold shuffleArray.
    destruct array as [|x array0] eqn:Harray.
    + apply Permutation_nil_l in Hperm as <-.
      exists (λ _, 0%nat). split; [intros i; lia | done].
    + rewrite <- Harray in *. apply shuffleLoop_reaches; [|done].
      subst array. simpl. lia.
  - intros (draw & _ & <-). symmetry. apply shuffleArray_Permutation.
Qed.

Lemma shuffleArray_permutes_and_reaches_witness :
  ∃ draw, drawsInRange draw ∧ shuffleArray draw [1; 2; 3] = [3; 1; 2].
Proof.
  apply shuffleArray_permutes_and_reaches.
  eapply perm_trans; [apply perm_skip, perm_swap | apply perm_swap].
Defined.

(** ** More about the turn order *)

(** X15: for any list of participants, with the starting participant
    missing from it, repeated in it, or in it once: the order begins with the
    starting participant, holds it nowhere else, holds every other
    participant as often as the input does, and is free of duplicates when
    the input is. *)
Theorem createPlayerOrder_any_input (draw : nat → nat) (startingParticipantId : Z)
    (allParticipantIds : list Z) (shuffleOrder : bool) :
  let order := createPlayerOrder draw startingParticipantId allParticipantIds shuffleOrder in
  order !! 0%nat = Some startingParticipantId
  ∧ (startingParticipantId ∉ drop 1 order)
  ∧ (drop 1 order ≡ₚ filter (λ id, id ≠ startingParticipantId) allParticipantIds)
  ∧ (startingParticipantId ∉ allParticipantIds →
     order ≡ₚ startingParticipantId :: allParticipantIds)
  ∧ (NoDup allParticipantIds → NoDup order).
Proof.
  intros order. subst order. unfold createPlayerOrder. simpl. rewrite drop_0.
  set (remaining := filter (λ id, id ≠ startingParticipantId) allParticipantIds).
  assert ((if shuffleOrder then shuffleArray draw remaining else remaining) ≡ₚ remaining)
    as Hperm by (destruct shuffleOrder; [apply shuffleArray_Permutation | done]).
  assert (startingParticipantId ∉ remaining) as Hnotin.
  { unfold remaining. intros [Hne _]%list_elem_of_filter. done. }
  split; [done|]. split; [by rewrite Hperm|]. split; [done|]. split.
  - intros Habsent. apply perm_skip. rewrite Hperm. unfold remaining.
    rewrite filter_all; [done|]. by intros x Hx ->.
  - intros Hnd. apply NoDup_cons. split; [by rewrite Hperm|].
    rewrite Hperm. by apply NoDup_filter.
Qed.

(** ** Rolling again *)

Lemma length_rollDice draw count : length (rollDice draw count) = count.
Proof. unfold rollDice. by rewrite length_fmap, length_seq. Qed.

Lemma lookup_rollDice draw count k :
  (k < count)%nat → rollDice draw count !! k = Some (draw k + 1).
Proof.
  intros Hk. unfold rollDice. rewrite list_lookup_fmap, lookup_seq_lt by done. done.
Qed.

Lemma filter_above_le (a : Z) (l : list Z) :
  (length (filter (λ z : Z, (a + 1 ≤ z)%Z) l) ≤ length (filter (λ z : Z, (a ≤ z)%Z) l))%nat.
Proof.
  induction l as [|z l IH]; [done|].
  rewrite !filter_cons. repeat case_decide; simpl; lia.
Qed.

Lemma filter_above_lt (a : Z) (l : list Z) :
  a ∈ l →
  (length (filter (λ z : Z, (a + 1 ≤ z)%Z) l) < length (filter (λ z : Z, (a ≤ z)%Z) l))%nat.
Proof.
  induction l as [|z l IH]; intros Hin; [by apply elem_of_nil in Hin|].
  rewrite !filter_cons. pose proof (filter_above_le a l).
  apply elem_of_cons in Hin as [<- | Hin].
  - rewrite decide_False by lia. rewrite decide_True by lia. simpl. lia.
  - specialize (IH Hin). repeat case_decide; simpl; lia.
Qed.

Lemma rerolledBefore_S diceToReroll i :
  rerolledBefore diceToReroll (S i)
  = (rerolledBefore diceToReroll i
     + if bool_decide (Z.of_nat i ∈ diceToReroll) then 1 else 0)%nat.
Proof.
  unfold rerolledBefore. rewrite seq_S, filter_app, length_app. simpl.
  rewrite filter_cons, filter_nil. case_decide; case_bool_decide; done.
Qed.

(** The counter never runs past the new rolls: what is left to reroll from
    [index] on fits into what is left of them. *)
Lemma rerolledBefore_mono diceToReroll i j :
  (rerolledBefore diceToReroll i ≤ rerolledBefore diceToReroll (i + j))%nat.
Proof.
  unfold rerolledBefore. rewrite seq_app, filter_app, length_app. lia.
Qed.

Lemma rerollFrom_Some draw diceToReroll count (previousDice : Dice) index rollIndex :
  (rollIndex + length (filter (λ z : Z, (Z.of_nat index ≤ z)%Z) diceToReroll) ≤ count)%nat →
  ∃ dice,
    rerollFrom (rollDice draw count) diceToReroll index rollIndex previousDice = Some dice
    ∧ length dice = length previousDice
    ∧ ∀ i die, previousDice !! i = Some die →
        dice !! i
        = Some (if bool_decide (Z.of_nat (index + i) ∈ diceToReroll)
                then mkDie (draw (rollIndex + rerolledBefore diceToReroll (index + i)
                                  - rerolledBefore diceToReroll index)%nat + 1) false
                else mkDie (value die) true).
Proof.
  revert index rollIndex.
  induction previousDice as [|die rest IH]; intros index rollIndex Hfit.
  { exists []. by repeat split. }
  pose proof (filter_above_le (Z.of_nat index) diceToReroll) as Hle.
  replace (Z.of_nat index + 1) with (Z.of_nat (S index)) in Hle by lia.
  pose proof (rerolledBefore_S diceToReroll index) as HS.
  cbn [rerollFrom]. case_bool_decide as Hin.
  - pose proof (filter_above_lt (Z.of_nat index) diceToReroll Hin) as Hlt.
    replace (Z.of_nat index + 1) with (Z.of_nat (S index)) in Hlt by lia.
    rewrite lookup_rollDice by lia.
    destruct (IH (S index) (S rollIndex)) as (dice & Hdice & Hlen & Hat); [lia|].
    rewrite Hdice. eexists. split; [done|]. split; [simpl; by rewrite Hlen|].
    intros [|i] d Hd.
    + rewrite Nat.add_0_r, bool_decide_eq_true_2 by done.
      replace (rollIndex + rerolledBefore diceToReroll index
               - rerolledBefore diceToReroll index)%nat with rollIndex by lia.
      done.
    + change (rest !! i = Some d) in Hd.
      match goal with
      | |- (?x :: ?l) !! S ?k = _ => change ((x :: l) !! S k) with (l !! k)
      end.
      rewrite (Hat i d Hd).
      replace (S index + i)%nat with (index + S i)%nat by lia.
      case_bool_decide; [|done].
      pose proof (rerolledBefore_mono diceToReroll (S index) i) as Hmono.
      replace (S index + i)%nat with (index + S i)%nat in Hmono by lia.
      replace (S rollIndex + rerolledBefore diceToReroll (index + S i)
               - rerolledBefore diceToReroll (S index))%nat
        with (rollIndex + rerolledBefore diceToReroll (index + S i)
              - rerolledBefore diceToReroll index)%nat by lia.
      done.
  - rewrite Nat.add_0_r in HS.
    destruct (IH (S index) rollIndex) as (dice & Hdice & Hlen & Hat); [lia|].
    rewrite Hdice. eexists. split; [done|]. split; [simpl; by rewrite Hlen|].
    intros [|i] d Hd.
    + rewrite Nat.add_0_r, bool_decide_eq_false_2 by done.
      injection Hd as ->. done.
    + change (rest !! i = Some d) in Hd.
      match goal with
      | |- (?x :: ?l) !! S ?k = _ => change ((x :: l) !! S k) with (l !! k)
      end.
      rewrite (Hat i d Hd).
      replace (S index + i)%nat with (index + S i)%nat by lia.
      by rewrite HS.
Qed.

(** X16: [createRollWithKept] always yields a full roll: it never reads past
    the faces it rolled, whatever indices it is given (repeated or out of
    range).  The result has as many dice as the previous roll; a die whose
    position is not listed keeps its face and is marked kept; a die whose
    position is listed is marked not kept and takes the next unused face, in
    position order.  With every draw in 0..5, rolling again from a Dice Set
    gives a Dice Set. *)
Theorem createRollWithKept_result (draw : nat → Z) (previousDice : Dice)
    (diceToReroll : list Z) :
  ∃ dice,
    createRollWithKept draw previousDice diceToReroll = Some dice
    ∧ length dice = length previousDice
    ∧ (∀ i die, previousDice !! i = Some die →
         dice !! i
         = Some (if bool_decide (Z.of_nat i ∈ diceToReroll)
                 then mkDie (draw (rerolledBefore diceToReroll i) + 1) false
                 else mkDie (value die) true))
    ∧ (facesInRange draw → validDice previousDice = true → validDice dice = true).
Proof.
  unfold createRollWithKept.
  destruct (rerollFrom_Some draw diceToReroll (length diceToReroll) previousDice 0 0)
    as (dice & Hdice & Hlen & Hat).
  { simpl. apply length_filter. }
  exists dice. split; [done|]. split; [done|].
  assert (∀ i die, previousDice !! i = Some die →
            dice !! i
            = Some (if bool_decide (Z.of_nat i ∈ diceToReroll)
                    then mkDie (draw (rerolledBefore diceToReroll i) + 1) false
                    else mkDie (value die) true)) as Hat'.
  { intros i die Hdie. rewrite (Hat i die Hdie).
    change (0 + i)%nat with i. change (rerolledBefore diceToReroll 0) with 0%nat.
    by rewrite Nat.add_0_l, Nat.sub_0_r. }
  split; [exact Hat'|].
  intros Hrange [Hlen3 Hfaces]%andb_prop. apply bool_decide_eq_true in Hlen3.
  unfold validDice. rewrite Hlen, bool_decide_eq_true_2 by done. simpl.
  apply forallb_forall. intros d Hd. apply list_elem_of_In in Hd.
  apply list_elem_of_lookup in Hd as [i Hi].
  assert (is_Some (previousDice !! i)) as [die Hdie].
  { apply lookup_lt_is_Some. rewrite <- Hlen. by eapply lookup_lt_Some. }
  pose proof (eq_trans (eq_sym Hi) (Hat' i die Hdie)) as Heq. injection Heq as ->.
  case_bool_decide; simpl.
  - unfold validFace. apply bool_decide_eq_true.
    specialize (Hrange (rerolledBefore diceToReroll i)). lia.
  - rewrite forallb_forall in Hfaces. apply Hfaces, list_elem_of_In.
    by eapply list_elem_of_lookup_2.
Qed.

Lemma createRollWithKept_result_witness :
  ∃ dice,
    createRollWithKept (λ _, 4) [mkDie 1 false; mkDie 2 false; mkDie 4 false] [2; 1; 2]
    = Some dice
    ∧ validDice dice = true.
Proof.
  destruct (createRollWithKept_result (λ _, 4)
              [mkDie 1 false; mkDie 2 false; mkDie 4 false] [2; 1; 2])
    as (dice & Hdice & _ & _ & Hvalid).
  exists dice. split; [done|]. apply Hvalid; [|reflexivity].
  intros k. lia.
Defined.

(** ** The queries of the store *)

Lemma orderBy_Permutation {A} (column : A → Z) (rows : list A) :
  orderBy column rows ≡ₚ rows.
Proof. apply merge_sort_Permutation. Qed.

Lemma orderBy_Sorted {A} (column : A → Z) (rows : list A) :
  StronglySorted (columnLe column) (orderBy column rows).
Proof. apply StronglySorted_merge_sort; apply _. Qed.

Lemma length_orderBy {A} (column : A → Z) (rows : list A) :
  length (orderBy column rows) = length rows.
Proof. by rewrite orderBy_Permutation. Qed.

Lemma elem_of_orderBy {A} (column : A → Z) (rows : list A) (x : A) :
  x ∈ orderBy column rows ↔ x ∈ rows.
Proof. by rewrite orderBy_Permutation. Qed.

Lemma StronglySorted_last {A} (R : relation A) (l : list A) (x : A) :
  StronglySorted R l → last l = Some x → ∀ y, y ∈ l → y = x ∨ R y x.
Proof.
  intros Hsorted [l' ->]%last_Some y Hy.
  apply elem_of_app in Hy as [Hy | ->%list_elem_of_singleton]; [|by left].
  right. revert Hsorted.
  induction l' as [|a l' IH]; intros Hsorted; [by apply elem_of_nil in Hy|].
  simpl in Hsorted. apply StronglySorted_inv in Hsorted as [Hsorted Hall].
  apply elem_of_cons in Hy as [-> | Hy]; [|by apply IH].
  rewrite Forall_forall in Hall. apply Hall, elem_of_app. right. apply list_elem_of_here.
Qed.

Lemma orderBy_last {A} (column : A → Z) (rows : list A) (x : A) :
  last (orderBy column rows) = Some x →
  x ∈ rows ∧ ∀ y, y ∈ rows → column y ≤ column x.
Proof.
  intros Hlast. split.
  - apply (elem_of_orderBy column). by eapply last_Some_elem_of.
  - intros y Hy%(elem_of_orderBy column).
    destruct (StronglySorted_last _ _ _ (orderBy_Sorted column rows) Hlast y Hy)
      as [-> | Hle]; [lia | exact Hle].
Qed.

Lemma orderBy_head {A} (column : A → Z) (rows : list A) (x : A) :
  head (orderBy column rows) = Some x →
  x ∈ rows ∧ ∀ y, y ∈ rows → column x ≤ column y.
Proof.
  intros Hhead. pose proof (orderBy_Sorted column rows) as Hsorted.
  destruct (orderBy column rows) as [|a l] eqn:Hl; [discriminate|].
  injection Hhead as ->. apply StronglySorted_inv in Hsorted as [_ Hall].
  assert (∀ y, y ∈ rows ↔ y ∈ x :: l) as Hin
    by (intros y; by rewrite <- Hl, elem_of_orderBy).
  split; [apply Hin, list_elem_of_here|].
  intros y [-> | Hy]%Hin%elem_of_cons; [lia|].
  rewrite Forall_forall in Hall. by apply Hall.
Qed.

(** X17: [getRollsByPlayerTurn] returns the rolls the store holds for that
    turn and session, each as often as the store holds it, ascending by roll
    number.  So the last roll, the one the turn reducer scores and
    classifies, is a roll of the turn with the highest roll number. *)
Theorem getRollsByPlayerTurn_result (st : Store) (playerTurnId gameSessionId : Z) :
  let rolls := getRollsByPlayerTurn st playerTurnId gameSessionId in
  rolls ≡ₚ filter (λ r, SelectRoll.gameSessionId r = gameSessionId
                        ∧ SelectRoll.playerTurnId r = playerTurnId) (rollsTable st)
  ∧ StronglySorted (λ a b, SelectRoll.rollNumber a ≤ SelectRoll.rollNumber b) rolls
  ∧ (∀ now turn lastRoll,
       last rolls = Some lastRoll →
       lastRoll ∈ rollsTable st
       ∧ SelectRoll.playerTurnId lastRoll = playerTurnId
       ∧ (∀ r, r ∈ rolls → SelectRoll.rollNumber r ≤ SelectRoll.rollNumber lastRoll)
       ∧ PlayerTurnModel.specialRollType (mapPlayerTurn now turn rolls)
         = detectSpecialRoll (SelectRoll.dice lastRoll)).
Proof.
  intros rolls. subst rolls. unfold getRollsByPlayerTurn.
  split; [apply orderBy_Permutation|]. split; [apply orderBy_Sorted|].
  intros now turn lastRoll Hlast.
  pose proof (orderBy_last _ _ _ Hlast) as [Hin Hmax].
  apply list_elem_of_filter in Hin as [[_ Hturn] Hin].
  split; [done|]. split; [done|]. split.
  - intros r Hr%elem_of_orderBy. by apply Hmax.
  - by destruct (mapPlayerTurn_last now turn _ lastRoll Hlast) as (-> & _).
Qed.

Lemma getRollsByPlayerTurn_result_witness :
  ∃ lastRoll, last (getRollsByPlayerTurn example1Store 4 1) = Some lastRoll
              ∧ SelectRoll.rollNumber lastRoll = 2.
Proof.
  exists (rollOf 4 2 [6; 5; 2]). split; [vm_compute; reflexivity|].
  destruct (getRollsByPlayerTurn_result example1Store 4 1) as (_ & _ & Hlast).
  destruct (Hlast 0 (SelectPlayerTurn.mk 4 1 1 14 4) (rollOf 4 2 [6; 5; 2]))
    as (_ & _ & Hmax & _); [vm_compute; reflexivity|].
  specialize (Hmax (rollOf 4 2 [6; 5; 2])). reflexivity.
Defined.

(** ** The maps the service builds *)

Lemma rollsByTurnIdOf_lookup db turns gameSessionId (key : Z) :
  rollsByTurnIdOf db turns gameSessionId !! key
  = if bool_decide (key ∈ SelectPlayerTurn.id <$> turns)
    then Some (getRollsByPlayerTurn (store db) key gameSessionId)
    else None.
Proof.
  unfold rollsByTurnIdOf. induction turns as [|turn turns IH] using rev_ind.
  - simpl. by rewrite lookup_empty.
  - rewrite foldl_snoc, fmap_app. simpl. rewrite lookup_insert.
    destruct (decide (SelectPlayerTurn.id turn = key)) as [Hid | Hid].
    + rewrite <- Hid. rewrite bool_decide_eq_true_2; [done|].
      apply elem_of_app. right. apply list_elem_of_here.
    + rewrite IH. destruct (decide (key ∈ SelectPlayerTurn.id <$> turns)) as [Hin | Hnotin].
      * rewrite !bool_decide_eq_true_2; [done | | done]. apply elem_of_app. by left.
      * rewrite !bool_decide_eq_false_2; [done | | done].
        by intros [? | ?%list_elem_of_singleton]%elem_of_app.
Qed.

Lemma rollsOfTurn_rollsByTurnIdOf db turns gameSessionId turn :
  turn ∈ turns →
  rollsOfTurn (rollsByTurnIdOf db turns gameSessionId) turn
  = getRollsByPlayerTurn (store db) (SelectPlayerTurn.id turn) gameSessionId.
Proof.
  intros Hin. unfold rollsOfTurn. rewrite rollsByTurnIdOf_lookup.
  rewrite bool_decide_eq_true_2; [done|]. by apply list_elem_of_fmap_2.
Qed.

Lemma turnsByRoundIdOf_lookup db rounds gameSessionId (key : Z) :
  turnsByRoundIdOf db rounds gameSessionId !! key
  = if bool_decide (key ∈ SelectRound.id <$> rounds)
    then Some (getPlayerTurnsByRound (store db) key gameSessionId)
    else None.
Proof.
  unfold turnsByRoundIdOf. induction rounds as [|round rounds IH] using rev_ind.
  - simpl. by rewrite lookup_empty.
  - rewrite foldl_snoc, fmap_app. simpl. rewrite lookup_insert.
    destruct (decide (SelectRound.id round = key)) as [Hid | Hid].
    + rewrite <- Hid. rewrite bool_decide_eq_true_2; [done|].
      apply elem_of_app. right. apply list_elem_of_here.
    + rewrite IH. destruct (decide (key ∈ SelectRound.id <$> rounds)) as [Hin | Hnotin].
      * rewrite !bool_decide_eq_true_2; [done | | done]. apply elem_of_app. by left.
      * rewrite !bool_decide_eq_false_2; [done | | done].
        by intros [? | ?%list_elem_of_singleton]%elem_of_app.
Qed.

(** With a die in every roll of the store, no round of the store makes
    [mapRound] throw. *)
Lemma roundModelOf_is_Some db clock round gameSessionId :
  everyRollHasDice db → is_Some (roundModelOf db clock round gameSessionId).
Proof.
  intros Hdice. unfold roundModelOf.
  destruct (mapRound _ _ _ _) as [rm|] eqn:Hrm; [by eexists|].
  apply mapRound_None_iff in Hrm as (turn & lastRoll & Hturn & Hlast & Hempty).
  rewrite rollsOfTurn_rollsByTurnIdOf in Hlast by done.
  pose proof (orderBy_last _ _ _ Hlast) as [[_ Hin]%list_elem_of_filter _].
  by destruct (Hdice lastRoll Hin).
Qed.

Lemma roundModelOf_turns db clock round gameSessionId rm :
  roundModelOf db clock round gameSessionId = Some rm →
  RoundModel.base rm = round
  ∧ length (RoundModel.turns rm)
    = length (getPlayerTurnsByRound (store db) (SelectRound.id round) gameSessionId).
Proof.
  unfold roundModelOf. intros Hrm. rewrite (mapRound_inv _ _ _ _ _ Hrm). simpl.
  split; [done|]. unfold mapTurns. by rewrite length_imap.
Qed.

Lemma getNextParticipantToPlay_cases (db : Database) (clock : nat → Date) (roundId : Z) :
  (head (filter (λ r, SelectRound.id r = roundId) (roundsTable db)) = None →
   getNextParticipantToPlay db clock roundId = Some None)
  ∧ (∀ round,
       head (filter (λ r, SelectRound.id r = roundId) (roundsTable db)) = Some round →
       let turnCount :=
         length (getPlayerTurnsByRound (store db) roundId (SelectRound.gameSessionId round)) in
       let next := SelectRound.playerOrder round !! turnCount in
       (getNextParticipantToPlay db clock roundId = None
        ∨ getNextParticipantToPlay db clock roundId = Some next)
       ∧ (everyRollHasDice db → getNextParticipantToPlay db clock roundId = Some next)).
Proof.
  split; [intros Hnone; unfold getNextParticipantToPlay; by rewrite Hnone|].
  intros round Hround turnCount next. unfold getNextParticipantToPlay. rewrite Hround.
  assert (SelectRound.id round = roundId) as Hid.
  { apply head_Some_elem_of, list_elem_of_filter in Hround as [Hid _]. done. }
  assert (∀ rm, roundModelOf db clock round (SelectRound.gameSessionId round) = Some rm →
            (if bool_decide (length (RoundModel.turns rm) = 0%nat)
             then Some (SelectRound.playerOrder (RoundModel.base rm) !! 0%nat)
             else if bool_decide (length (SelectRound.playerOrder (RoundModel.base rm))
                                  ≤ length (RoundModel.turns rm))%nat
                  then Some None
                  else Some (SelectRound.playerOrder (RoundModel.base rm)
                             !! length (RoundModel.turns rm)))
            = Some next) as Hnext.
  { intros rm [-> Hlen]%roundModelOf_turns. rewrite Hlen, Hid. fold turnCount.
    subst next. destruct (decide (turnCount = 0%nat)) as [Hzero | Hpos].
    - rewrite bool_decide_eq_true_2 by done. by rewrite Hzero.
    - rewrite bool_decide_eq_false_2 by done. case_bool_decide as Hfull; [|done].
      f_equal. symmetry. by apply lookup_ge_None. }
  split.
  - destruct (roundModelOf _ _ _ _) as [rm|] eqn:Hrm; simpl; [right; by apply Hnext | by left].
  - intros Hdice.
    destruct (roundModelOf_is_Some db clock round (SelectRound.gameSessionId round) Hdice)
      as [rm Hrm].
    rewrite Hrm. simpl. by apply Hnext.
Qed.

(** X18: the next participant to play is the entry of the round's player
    order at the position given by the number of turns the store holds for
    the round, and nobody once that many turns or more are recorded; there
    is none for a round the store does not hold.  The call fails only when
    [mapRound] throws, which it does not when every roll has a die. *)
Theorem getNextParticipantToPlay_result (db : Database) (clock : nat → Date) (roundId : Z) :
  (head (filter (λ r, SelectRound.id r = roundId) (roundsTable db)) = None →
   getNextParticipantToPlay db clock roundId = Some None)
  ∧ (∀ round,
       head (filter (λ r, SelectRound.id r = roundId) (roundsTable db)) = Some round →
       let turnCount :=
         length (getPlayerTurnsByRound (store db) roundId (SelectRound.gameSessionId round)) in
       let next := SelectRound.playerOrder round !! turnCount in
       (getNextParticipantToPlay db clock roundId = None
        ∨ getNextParticipantToPlay db clock roundId = Some next)
       ∧ (everyRollHasDice db → getNextParticipantToPlay db clock roundId = Some next)).
Proof. apply getNextParticipantToPlay_cases. Qed.

Lemma getNextParticipantToPlay_result_witness :
  getNextParticipantToPlay
    (mkDatabase (mkStore (take 2 example1Turns) (rollsTable example1Store)) [] []
       [example1Round])
    (λ _, 0) 1
  = Some (Some 13).
Proof.
  destruct (getNextParticipantToPlay_result
              (mkDatabase (mkStore (take 2 example1Turns) (rollsTable example1Store)) [] []
                 [example1Round])
              (λ _, 0) 1) as [_ Hfound].
  destruct (Hfound example1Round eq_refl) as [_ Hnext].
  apply Hnext. intros roll Hroll.
  repeat (apply elem_of_cons in Hroll as [-> | Hroll]; [discriminate|]).
  by apply elem_of_nil in Hroll.
Defined.

(** ** The latest and the current round *)

Lemma NoDup_fmap_eq {A B} (f : A → B) (l : list A) (x y : A) :
  NoDup (f <$> l) → x ∈ l → y ∈ l → f x = f y → x = y.
Proof.
  induction l as [|a l IH]; intros Hnd Hx Hy Hf; [by apply elem_of_nil in Hx|].
  rewrite fmap_cons in Hnd. apply NoDup_cons in Hnd as [Ha Hnd].
  apply elem_of_cons in Hx as [-> | Hx]; apply elem_of_cons in Hy as [-> | Hy].
  - done.
  - destruct Ha. rewrite Hf. by apply list_elem_of_fmap_2.
  - destruct Ha. rewrite <- Hf. by apply list_elem_of_fmap_2.
  - by apply IH.
Qed.

Lemma getRoundsBySession_last db gameSessionId round :
  last (getRoundsBySession db gameSessionId) = Some round →
  round ∈ roundsTable db
  ∧ SelectRound.gameSessionId round = gameSessionId
  ∧ ∀ r, r ∈ roundsTable db → SelectRound.gameSessionId r = gameSessionId →
         SelectRound.roundNumber r ≤ SelectRound.roundNumber round.
Proof.
  unfold getRoundsBySession. intros [Hin Hmax]%orderBy_last.
  apply list_elem_of_filter in Hin as [Hsession Hin].
  repeat split; try done. intros r Hr Hs. by apply Hmax, list_elem_of_filter.
Qed.

Lemma getLatestRoundQuery_Some db gameSessionId round :
  getLatestRoundQuery db gameSessionId = Some round →
  round ∈ roundsTable db
  ∧ SelectRound.gameSessionId round = gameSessionId
  ∧ ∀ r, r ∈ roundsTable db → SelectRound.gameSessionId r = gameSessionId →
         SelectRound.roundNumber r ≤ SelectRound.roundNumber round.
Proof.
  unfold getLatestRoundQuery. intros [Hin Hmax]%orderBy_head.
  apply list_elem_of_filter in Hin as [Hsession Hin].
  repeat split; try done. intros r Hr Hs.
  assert (- SelectRound.roundNumber round ≤ - SelectRound.roundNumber r); [|lia].
  by apply Hmax, list_elem_of_filter.
Qed.

(** With distinct round numbers the two ways the service finds the latest
    round agree: the last of the ascending list is the first of the
    descending one. *)
Lemma getLatestRoundQuery_last db gameSessionId :
  roundNumbersDistinct db gameSessionId →
  getLatestRoundQuery db gameSessionId = last (getRoundsBySession db gameSessionId).
Proof.
  intros Hdistinct.
  destruct (getLatestRoundQuery db gameSessionId) as [r1|] eqn:H1;
    destruct (last (getRoundsBySession db gameSessionId)) as [r2|] eqn:H2.
  - f_equal.
    destruct (getLatestRoundQuery_Some _ _ _ H1) as (Hin1 & Hs1 & Hmax1).
    destruct (getRoundsBySession_last _ _ _ H2) as (Hin2 & Hs2 & Hmax2).
    apply (NoDup_fmap_eq SelectRound.roundNumber _ _ _ Hdistinct).
    + by apply list_elem_of_filter.
    + by apply list_elem_of_filter.
    + specialize (Hmax1 r2 Hin2 Hs2). specialize (Hmax2 r1 Hin1 Hs1). lia.
  - exfalso. apply last_None in H2.
    apply getLatestRoundQuery_Some in H1 as (Hin & Hs & _).
    assert (r1 ∈ getRoundsBySession db gameSessionId) as Hr1.
    { unfold getRoundsBySession. apply elem_of_orderBy. by apply list_elem_of_filter. }
    rewrite H2 in Hr1. by apply elem_of_nil in Hr1.
  - exfalso. apply getRoundsBySession_last in H2 as (Hin & Hs & _).
    unfold getLatestRoundQuery in H1. apply head_None in H1.
    assert (r2 ∈ orderBy (λ r, - SelectRound.roundNumber r)
                   (filter (λ r, SelectRound.gameSessionId r = gameSessionId)
                      (roundsTable db))) as Hr2.
    { apply elem_of_orderBy. by apply list_elem_of_filter. }
    rewrite H1 in Hr2. by apply elem_of_nil in Hr2.
  - done.
Qed.

(** X19: the current round.  A round model [getCurrentRound] returns is in
    progress and is the model of a round of the session with the highest
    round number; and when the round numbers of the session are distinct,
    [getCurrentRound] is [getLatestRound] with a completed round replaced by
    null. *)
Theorem getCurrentRound_result (db : Database) (clock : nat → Date) (gameSessionId : Z) :
  (∀ rm, getCurrentRound db clock gameSessionId = Some (Some rm) →
     RoundModel.status rm = round_in_progress
     ∧ RoundModel.base rm ∈ roundsTable db
     ∧ SelectRound.gameSessionId (RoundModel.base rm) = gameSessionId
     ∧ (∀ r, r ∈ roundsTable db → SelectRound.gameSessionId r = gameSessionId →
             SelectRound.roundNumber r ≤ SelectRound.roundNumber (RoundModel.base rm)))
  ∧ (roundNumbersDistinct db gameSessionId →
     getCurrentRound db clock gameSessionId
     = (λ latest, latest ≫= inProgressOnly) <$> getLatestRound db clock gameSessionId).
Proof.
  split.
  - intros rm. unfold getCurrentRound.
    destruct (last (getRoundsBySession db gameSessionId)) as [round|] eqn:Hlast;
      [|discriminate].
    destruct (roundModelOf db clock round gameSessionId) as [rm'|] eqn:Hrm; [|discriminate].
    simpl. destruct (RoundModel.status rm') eqn:Hstatus; [|discriminate].
    intros [= <-]. apply roundModelOf_turns in Hrm as [-> _].
    split; [done|]. by apply getRoundsBySession_last.
  - intros Hdistinct. unfold getCurrentRound, getLatestRound.
    rewrite (getLatestRoundQuery_last _ _ Hdistinct).
    destruct (last (getRoundsBySession db gameSessionId)) as [round|]; [|done].
    destruct (roundModelOf db clock round gameSessionId) as [rm|]; [|done].
    done.
Qed.

Lemma getCurrentRound_result_witness :
  getCurrentRound example1Database (λ _, 0) 1
  = (λ latest, latest ≫= inProgressOnly) <$> getLatestRound example1Database (λ _, 0) 1.
Proof.
  apply getCurrentRound_result.
  apply (bool_decide_unpack _). vm_compute. exact I.
Defined.

(** ** The complete game *)

Lemma getGameSessionById_Some db id session :
  getGameSessionById db id = Some session →
  session ∈ gameSessionsTable db ∧ SelectGameSession.id session = id.
Proof.
  unfold getGameSessionById.
  intros [Hid Hin]%head_Some_elem_of%list_elem_of_filter. done.
Qed.

Lemma elem_of_concat {A} (x : A) (ls : list (list A)) :
  x ∈ concat ls ↔ ∃ l, l ∈ ls ∧ x ∈ l.
Proof.
  rewrite list_elem_of_In, in_concat. split.
  - intros (l & Hl & Hx). exists l. by rewrite !list_elem_of_In.
  - intros (l & Hl & Hx). exists l. by rewrite <- !list_elem_of_In.
Qed.

(** Inside [getCompleteGame] a round is mapped with the maps of the whole
    session; the result is the same as mapping it with its own turns and
    rolls. *)
Lemma mapRound_session_maps db clock rounds round gameSessionId :
  round ∈ rounds →
  mapRound clock round
    (turnsOfRound (turnsByRoundIdOf db rounds gameSessionId) round)
    (rollsByTurnIdOf db
       (concat ((λ round, getPlayerTurnsByRound (store db) (SelectRound.id round)
                            gameSessionId) <$> rounds))
       gameSessionId)
  = roundModelOf db clock round gameSessionId.
Proof.
  intros Hround. unfold roundModelOf, turnsOfRound.
  rewrite turnsByRoundIdOf_lookup.
  rewrite bool_decide_eq_true_2 by (by apply list_elem_of_fmap_2). simpl.
  apply mapRound_rolls_ext. intros turn Hturn. rewrite !rollsByTurnIdOf_lookup.
  rewrite (bool_decide_eq_true_2 (_ ∈ _ <$> concat _)).
  - rewrite bool_decide_eq_true_2; [done|]. by apply list_elem_of_fmap_2.
  - apply list_elem_of_fmap_2, elem_of_concat.
    exists (getPlayerTurnsByRound (store db) (SelectRound.id round) gameSessionId).
    split; [|done].
    by apply (list_elem_of_fmap_2
                (λ round, getPlayerTurnsByRound (store db) (SelectRound.id round)
                            gameSessionId)).
Qed.

(** X20: the complete game.  There is none for a session the store does not
    hold.  Otherwise the call fails exactly when mapping one round of the
    session fails, and the game it returns carries the session, its
    participants, and one round model per round of the session in ascending
    round number, each equal to the model that round has when it is mapped
    on its own from its turns and their rolls. *)
Theorem getCompleteGame_result (db : Database) (clock : nat → nat → Date)
    (gameSessionId : Z) :
  (getGameSessionById db gameSessionId = None →
   getCompleteGame db clock gameSessionId = Some None)
  ∧ (∀ session,
       getGameSessionById db gameSessionId = Some session →
       let rounds := getRoundsBySession db gameSessionId in
       (getCompleteGame db clock gameSessionId = None ↔
        ∃ r round, rounds !! r = Some round
                   ∧ roundModelOf db (clock r) round gameSessionId = None)
       ∧ getCompleteGame db clock gameSessionId ≠ Some None
       ∧ (∀ game,
            getCompleteGame db clock gameSessionId = Some (Some game) →
            GameModel.base game = session
            ∧ GameModel.participants game = getGameParticipantsBySession db gameSessionId
            ∧ length (GameModel.rounds game) = length rounds
            ∧ ∀ r round, rounds !! r = Some round →
                GameModel.rounds game !! r
                = roundModelOf db (clock r) round gameSessionId)).
Proof.
  split; [intros Hnone; unfold getCompleteGame; by rewrite Hnone|].
  intros session Hsession rounds.
  pose proof (getGameSessionById_Some _ _ _ Hsession) as [_ Hid].
  unfold getCompleteGame. rewrite Hsession, Hid. fold rounds.
  set (turnsByRoundId := turnsByRoundIdOf db rounds gameSessionId).
  set (rollsByTurnId := rollsByTurnIdOf db _ gameSessionId).
  destruct (mapGame_cases clock session (getGameParticipantsBySession db gameSessionId)
              rounds turnsByRoundId rollsByTurnId) as [Hnone Hsome].
  assert (∀ r round, rounds !! r = Some round →
            mapRound (clock r) round (turnsOfRound turnsByRoundId round) rollsByTurnId
            = roundModelOf db (clock r) round gameSessionId) as Hround.
  { intros r round Hr. apply mapRound_session_maps. by eapply list_elem_of_lookup_2. }
  split; [|split].
  - destruct (mapGame _ _ _ _ _ _) as [game|] eqn:Hgame; simpl.
    + split; [discriminate|]. intros (r & round & Hr & Hfail).
      assert (Some game = None) as Habs; [|discriminate].
      apply Hnone. exists r, round. by rewrite Hround.
    + split; [|done]. intros _. destruct Hnone as [Hnone _].
      destruct (Hnone eq_refl) as (r & round & Hr & Hfail).
      exists r, round. by rewrite <- Hround.
  - by destruct (mapGame _ _ _ _ _ _).
  - intros game Hgame.
    destruct (mapGame _ _ _ _ _ _) as [game'|] eqn:Hgame'; [|discriminate].
    simpl in Hgame. injection Hgame as ->.
    destruct (Hsome game eq_refl) as (Hbase & Hparts & Hlen & Hrounds & _).
    repeat split; try done.
    intros r round Hr. by rewrite <- (Hrounds r round Hr), Hround.
Qed.

Lemma getCompleteGame_result_witness :
  ∃ game, getCompleteGame example1Database (λ _ _, 0) 1 = Some (Some game)
          ∧ GameModel.rounds game !! 0%nat
            = roundModelOf example1Database (λ _, 0) example1Round 1.
Proof.
  destruct (getCompleteGame_result example1Database (λ _ _, 0) 1) as [_ Hfound].
  destruct (Hfound (SelectGameSession.mk 1 "owner" (mkConfig "New Game" false) 100 None)
              eq_refl) as (_ & _ & Hgame).
  destruct (getCompleteGame example1Database (λ _ _, 0) 1) as [[game|]|] eqn:Hg;
    [|vm_compute in Hg; discriminate..].
  exists game. split; [done|].
  destruct (Hgame game eq_refl) as (_ & _ & _ & Hrounds).
  by apply (Hrounds 0%nat example1Round).
Defined.

(** ** Creating a round *)

Lemma getMaxRoundNumber_latest db gameSessionId round :
  getLatestRoundQuery db gameSessionId = Some round →
  getMaxRoundNumber db gameSessionId = SelectRound.roundNumber round.
Proof.
  unfold getMaxRoundNumber. intros ->. by case_bool_decide.
Qed.

Lemma getMaxRoundNumber_upper db gameSessionId r :
  r ∈ roundsTable db → SelectRound.gameSessionId r = gameSessionId →
  SelectRound.roundNumber r ≤ getMaxRoundNumber db gameSessionId.
Proof.
  intros Hr Hs.
  destruct (getLatestRoundQuery db gameSessionId) as [latest|] eqn:Hlatest.
  - rewrite (getMaxRoundNumber_latest _ _ _ Hlatest).
    by apply (getLatestRoundQuery_Some _ _ _ Hlatest).
  - unfold getLatestRoundQuery in Hlatest. apply head_None in Hlatest.
    assert (r ∈ orderBy (λ r, - SelectRound.roundNumber r)
                  (filter (λ r, SelectRound.gameSessionId r = gameSessionId)
                     (roundsTable db))) as Hin
      by (apply elem_of_orderBy; by apply list_elem_of_filter).
    rewrite Hlatest in Hin. by apply elem_of_nil in Hin.
Qed.

Lemma createRound_Some db newId now draw gameSessionId startingParticipantId
    allParticipantIds shuffleOrder session :
  getGameSessionById db gameSessionId = Some session →
  let row :=
    SelectRound.mk newId gameSessionId (getMaxRoundNumber db gameSessionId + 1)
      (createPlayerOrder draw startingParticipantId allParticipantIds
         (default (randomTurnOrder (SelectGameSession.config session)) shuffleOrder))
      now in
  createRound db newId now draw gameSessionId startingParticipantId allParticipantIds
    shuffleOrder
  = Some (mkDatabase (store db) (gameSessionsTable db) (gameParticipantsTable db)
            (roundsTable db ++ [row]), newId).
Proof. intros Hsession. unfold createRound. by rewrite Hsession. Qed.




Lemma filter_nil_all {A} (P : A → Prop) `{!∀ x, Decision (P x)} (l : list A) :
  (∀ x, x ∈ l → ¬ P x) → filter P l = [].
Proof.
  induction l as [|a l IH]; intros Hnone; [done|].
  rewrite filter_cons_False by apply Hnone, list_elem_of_here.
  apply IH. intros x Hx. by apply Hnone, list_elem_of_further.
Qed.

Lemma orderBy_nil_inv {A} (column : A → Z) (rows : list A) :
  rows = [] → orderBy column rows = [].
Proof. by intros ->. Qed.

(** X22: a round that was just created, under an id no round and no turn of
    the store refers to yet, is the current round of its session, in
    progress, with no turn, a penalty of one sip and an allowance of three
    rolls, and the first participant to play in it is the starting
    participant. *)
Theorem createRound_then_play (db db' : Database) (newId id : Z) (now : Date)
    (draw : nat → nat) (gameSessionId startingParticipantId : Z)
    (allParticipantIds : list Z) (shuffleOrder : option bool) (clock : nat → Date) :
  (∀ r, r ∈ roundsTable db → SelectRound.id r ≠ newId) →
  (∀ t, t ∈ playerTurnsTable (store db) → SelectPlayerTurn.roundId t ≠ newId) →
  createRound db newId now draw gameSessionId startingParticipantId allParticipantIds
    shuffleOrder = Some (db', id) →
  getNextParticipantToPlay db' clock id = Some (Some startingParticipantId)
  ∧ ∃ rm, getCurrentRound db' clock gameSessionId = Some (Some rm)
          ∧ SelectRound.id (RoundModel.base rm) = id
          ∧ RoundModel.turns rm = []
          ∧ RoundModel.status rm = round_in_progress
          ∧ RoundModel.startingParticipantId rm = Some startingParticipantId
          ∧ RoundModel.currentPenaltySips rm = 1
          ∧ RoundModel.maxRollsAllowed rm = 3
          ∧ RoundModel.losingParticipantId rm = None.
Proof.
  intros Hfresh Hnoturn Hcreate.
  destruct (getGameSessionById db gameSessionId) as [session|] eqn:Hsession;
    [|unfold createRound in Hcreate; rewrite Hsession in Hcreate; discriminate].
  rewrite (createRound_Some _ _ _ _ _ _ _ _ _ Hsession) in Hcreate.
  injection Hcreate as <- <-.
  set (row := SelectRound.mk newId gameSessionId _ _ now).
  set (db' := mkDatabase _ _ _ (roundsTable db ++ [row])).
  assert (getPlayerTurnsByRound (store db') newId gameSessionId = []) as Hturns.
  { unfold getPlayerTurnsByRound. apply orderBy_nil_inv, filter_nil_all.
    intros t Ht [_ Hround]. by apply (Hnoturn t). }
  assert (roundModelOf db' clock row gameSessionId
          = Some (RoundModel.mk row [] round_in_progress (Some startingParticipantId)
                    3 1 None None None)) as Hmodel.
  { unfold roundModelOf. change (SelectRound.id row) with newId. by rewrite Hturns. }
  split.
  - unfold getNextParticipantToPlay.
    assert (filter (λ r, SelectRound.id r = newId) (roundsTable db') = [row]) as ->.
    { subst db'. simpl. rewrite filter_app, filter_cons_True, filter_nil by done.
      rewrite filter_nil_all; [done|]. intros r Hr. by apply Hfresh. }
    simpl. change (SelectRound.gameSessionId row) with gameSessionId.
    by rewrite Hmodel.
  - eexists. unfold getCurrentRound.
    assert (last (getRoundsBySession db' gameSessionId) = Some row) as ->.
    { destruct (last (getRoundsBySession db' gameSessionId)) as [latest|] eqn:Hlast.
      - f_equal. apply getRoundsBySession_last in Hlast as (Hin & Hs & Hmax).
        apply elem_of_app in Hin as [Hold | ->%list_elem_of_singleton]; [|done].
        assert (row ∈ roundsTable db') as Hrow
          by (apply elem_of_app; right; apply list_elem_of_here).
        specialize (Hmax row Hrow eq_refl).
        pose proof (getMaxRoundNumber_upper db _ latest Hold Hs). simpl in Hmax. lia.
      - apply last_None in Hlast.
        assert (row ∈ getRoundsBySession db' gameSessionId) as Hin.
        { unfold getRoundsBySession. apply elem_of_orderBy, list_elem_of_filter.
          split; [done|]. apply elem_of_app. right. apply list_elem_of_here. }
        rewrite Hlast in Hin. by apply elem_of_nil in Hin. }
    rewrite Hmodel. simpl. done.
Qed.

Lemma createRound_then_play_witness :
  ∃ db', createRound example1Database 2 600 (λ _, 0%nat) 1 14 [11; 12; 13; 14] None
         = Some (db', 2)
         ∧ getNextParticipantToPlay db' (λ _, 0) 2 = Some (Some 14).
Proof.
  destruct (createRound example1Database 2 600 (λ _, 0%nat) 1 14 [11; 12; 13; 14] None)
    as [[db' id]|] eqn:Hcreate; [|vm_compute in Hcreate; discriminate].
  assert (id = 2) as -> by (vm_compute in Hcreate; by injection Hcreate as _ <-).
  exists db'. split; [done|].
  apply (createRound_then_play example1Database db' 2 2 600 (λ _, 0%nat) 1 14
           [11; 12; 13; 14] None (λ _, 0)); [| |done].
  - intros r ->%list_elem_of_singleton. discriminate.
  - intros t Ht. repeat (apply elem_of_cons in Ht as [-> | Ht]; [discriminate|]).
    by apply elem_of_nil in Ht.
Defined.

(** ** Taking turns *)

Lemma getPlayerTurnsByRound_insert st row :
  length (getPlayerTurnsByRound
            (mkStore (playerTurnsTable st ++ [row]) (rollsTable st))
            (SelectPlayerTurn.roundId row) (SelectPlayerTurn.gameSessionId row))
  = S (length (getPlayerTurnsByRound st (SelectPlayerTurn.roundId row)
                 (SelectPlayerTurn.gameSessionId row))).
Proof.
  unfold getPlayerTurnsByRound. rewrite !length_orderBy. simpl.
  rewrite filter_app, filter_cons_True, filter_nil by done.
  rewrite length_app. simpl. lia.
Qed.

(** X23: recording a turn for a round moves the next participant one
    position along the round's player order, from the entry at the number
    of turns recorded to the entry after it, when every roll has a die. *)
Theorem createPlayerTurn_advances (db : Database) (newId participantId turnOrder : Z)
    (clock : nat → Date) (round : SelectRound.t) :
  head (filter (λ r, SelectRound.id r = SelectRound.id round) (roundsTable db))
  = Some round →
  everyRollHasDice db →
  let db' :=
    fst (createPlayerTurn db newId (SelectRound.gameSessionId round)
           (SelectRound.id round) participantId turnOrder) in
  let turnCount :=
    length (getPlayerTurnsByRound (store db) (SelectRound.id round)
              (SelectRound.gameSessionId round)) in
  getNextParticipantToPlay db clock (SelectRound.id round)
  = Some (SelectRound.playerOrder round !! turnCount)
  ∧ getNextParticipantToPlay db' clock (SelectRound.id round)
    = Some (SelectRound.playerOrder round !! S turnCount).
Proof.
  intros Hround Hdice db' turnCount. subst turnCount.
  split.
  - destruct (getNextParticipantToPlay_cases db clock (SelectRound.id round)) as [_ Hnext].
    by apply (Hnext round Hround).
  - destruct (getNextParticipantToPlay_cases db' clock (SelectRound.id round)) as [_ Hnext].
    destruct (Hnext round Hround) as [_ Hsome].
    rewrite Hsome by done. do 2 f_equal.
    apply (getPlayerTurnsByRound_insert (store db)
             (SelectPlayerTurn.mk newId (SelectRound.gameSessionId round)
                (SelectRound.id round) participantId turnOrder)).
Qed.

Lemma createPlayerTurn_advances_witness :
  getNextParticipantToPlay
    (mkDatabase (mkStore (take 2 example1Turns) (rollsTable example1Store)) [] []
       [example1Round]) (λ _, 0) 1
  = Some (SelectRound.playerOrder example1Round !! 2%nat)
  ∧ getNextParticipantToPlay
      (fst (createPlayerTurn
              (mkDatabase (mkStore (take 2 example1Turns) (rollsTable example1Store))
                 [] [] [example1Round]) 3 1 1 13 3)) (λ _, 0) 1
    = Some (SelectRound.playerOrder example1Round !! 3%nat).
Proof.
  apply (createPlayerTurn_advances
           (mkDatabase (mkStore (take 2 example1Turns) (rollsTable example1Store)) [] []
              [example1Round]) 3 13 3 (λ _, 0) example1Round eq_refl).
  intros roll Hroll.
  repeat (apply elem_of_cons in Hroll as [-> | Hroll]; [discriminate|]).
  by apply elem_of_nil in Hroll.
Defined.

(** ** The statistics of a participant *)

Lemma statsLoop_invariant (I : nat → ParticipantStats → Prop) db clock participantId
    gameSessionId (rounds : list SelectRound.t) :
  (∀ k stats round r rm,
     round ∈ rounds → roundModelOf db (clock r) round gameSessionId = Some rm →
     I k stats → I (S k) (statsStep participantId stats rm)) →
  ∀ r k stats stats',
    statsLoop db clock participantId gameSessionId r rounds stats = Some stats' →
    I k stats → I (k + length rounds)%nat stats'.
Proof.
  induction rounds as [|round rounds IH]; intros Hstep r k stats stats' Hloop HI.
  - simpl in *. injection Hloop as <-. by rewrite Nat.add_0_r.
  - simpl in Hloop.
    destruct (roundModelOf db (clock r) round gameSessionId) as [rm|] eqn:Hrm;
      [|discriminate].
    simpl in Hloop. replace (k + length (round :: rounds))%nat
      with (S k + length rounds)%nat by (simpl; lia).
    apply (IH (λ k stats round' r' rm' Hin, Hstep k stats round' r' rm'
                 (list_elem_of_further _ _ _ Hin)) _ _ _ _ Hloop).
    apply (Hstep k stats round r rm); [apply list_elem_of_here | done | done].
Qed.

Lemma statsStep_cases (participantId : Z) (stats : ParticipantStats) (rm : RoundModel.t) :
  let stats' := statsStep participantId stats rm in
  stats_participantId stats' = stats_participantId stats
  ∧ ((roundsLost stats' = roundsLost stats ∧ sipsDrunk stats' = sipsDrunk stats
      ∧ (roundsWon stats' = roundsWon stats ∨ roundsWon stats' = roundsWon stats + 1))
     ∨ (roundsLost stats' = roundsLost stats + 1
        ∧ roundsWon stats' = roundsWon stats
        ∧ RoundModel.status rm = round_completed
        ∧ RoundModel.losingParticipantId rm = Some participantId
        ∧ sipsDrunk stats'
          = sipsDrunk stats + default 0 (RoundModel.finalPenaltySips rm)))
  ∧ (sipsAwarded stats' = sipsAwarded stats
     ∨ ∃ t, t ∈ RoundModel.turns rm ∧ PlayerTurnModel.participantId t = participantId).
Proof.
  unfold statsStep. destruct (RoundModel.status rm) eqn:Hstatus; simpl.
  { split; [done|]. split; [left; by repeat split; try left | by left]. }
  assert (∀ awarded : PlayerTurnModel.t → Z,
            match snd <$> list_find (λ t, PlayerTurnModel.participantId t = participantId)
                            (RoundModel.turns rm) with
            | Some turn => awarded turn
            | None => sipsAwarded stats
            end = sipsAwarded stats
            ∨ ∃ t, t ∈ RoundModel.turns rm
                   ∧ PlayerTurnModel.participantId t = participantId) as Hawarded.
  { intros awarded.
    destruct (list_find _ (RoundModel.turns rm)) as [[k t]|] eqn:Hfind; simpl; [|by left].
    right. apply list_find_Some in Hfind as (Hk & Hp & _).
    exists t. split; [by eapply list_elem_of_lookup_2 | done]. }
  destruct (bool_decide (RoundModel.losingParticipantId rm = Some participantId))
    eqn:Hlost; [apply bool_decide_eq_true in Hlost|];
    [|destruct (idTruthy (RoundModel.losingParticipantId rm))]; simpl;
    (split; [done|]); (split; [|apply Hawarded]).
  - right. by repeat split.
  - left. repeat split; auto.
  - left. repeat split; auto.
Qed.

Lemma roundModelOf_model db clock round gameSessionId rm :
  roundModelOf db clock round gameSessionId = Some rm →
  let turns := getPlayerTurnsByRound (store db) (SelectRound.id round) gameSessionId in
  let rollsByTurnId := rollsByTurnIdOf db turns gameSessionId in
  RoundModel.turns rm = mapTurns clock turns rollsByTurnId
  ∧ (RoundModel.status rm = round_completed →
     RoundModel.finalPenaltySips rm = Some (RoundModel.currentPenaltySips rm)
     ∧ RoundModel.losingParticipantId rm
       = findLoserFromTurns (mapTurns clock turns rollsByTurnId)).
Proof.
  unfold roundModelOf. intros Hrm. rewrite (mapRound_inv _ _ _ _ _ Hrm). simpl.
  split; [done|]. by destruct (isRoundCompleteFromData _ _).
Qed.

Lemma getPlayerTurnsByRound_elem st roundId gameSessionId t :
  t ∈ getPlayerTurnsByRound st roundId gameSessionId →
  t ∈ playerTurnsTable st ∧ SelectPlayerTurn.gameSessionId t = gameSessionId
  ∧ SelectPlayerTurn.roundId t = roundId.
Proof.
  unfold getPlayerTurnsByRound.
  intros [[Hs Hr] Hin]%elem_of_orderBy%list_elem_of_filter. done.
Qed.

(** A turn model of a round of the store belongs to a turn row of the
    session. *)
Lemma roundModelOf_turn_rows db clock round gameSessionId rm m :
  roundModelOf db clock round gameSessionId = Some rm →
  m ∈ RoundModel.turns rm →
  ∃ t, t ∈ playerTurnsTable (store db)
       ∧ SelectPlayerTurn.gameSessionId t = gameSessionId
       ∧ SelectPlayerTurn.participantId t = PlayerTurnModel.participantId m.
Proof.
  intros [Hturns _]%roundModelOf_model Hm. rewrite Hturns in Hm.
  apply elem_of_mapTurns in Hm as (k & t & Ht & ->).
  apply list_elem_of_lookup_2, getPlayerTurnsByRound_elem in Ht as (Hin & Hs & _).
  exists t. by repeat split.
Qed.

Lemma validRolls_rollsByTurnIdOf db turns gameSessionId :
  everyRollValid db → validRolls (rollsByTurnIdOf db turns gameSessionId) turns = true.
Proof.
  intros Hvalid. unfold validRolls. apply forallb_forall. intros turn Hturn%list_elem_of_In.
  rewrite rollsOfTurn_rollsByTurnIdOf by done.
  apply forallb_forall. intros roll Hroll%list_elem_of_In. apply Hvalid.
  unfold getRollsByPlayerTurn in Hroll.
  by apply elem_of_orderBy, list_elem_of_filter in Hroll as [_ Hroll].
Qed.

Lemma roundModelOf_final_penalty db clock round gameSessionId rm :
  everyRollValid db →
  roundModelOf db clock round gameSessionId = Some rm →
  RoundModel.status rm = round_completed →
  ∃ penalty, RoundModel.finalPenaltySips rm = Some penalty ∧ 1 ≤ penalty.
Proof.
  intros Hvalid Hrm Hstatus.
  destruct (roundModelOf_model _ _ _ _ _ Hrm) as [_ Hdone].
  destruct (Hdone Hstatus) as [-> _]. eexists. split; [done|].
  unfold roundModelOf in Hrm.
  destruct (mapRound_Some clock round _ _
              (validRolls_rollsByTurnIdOf db
                 (getPlayerTurnsByRound (store db) (SelectRound.id round) gameSessionId)
                 gameSessionId Hvalid))
    as (rm' & Hrm' & _ & _ & Hcur & _).
  rewrite Hrm in Hrm'. injection Hrm' as <-. rewrite Hcur.
  by apply penaltyOf_mapTurns_bounds, validRolls_rollsByTurnIdOf.
Qed.

(** X24: the statistics of a participant in a session.  Wins and losses are
    counted per round, so together they never exceed the number of rounds of
    the session; the sips drunk are the final penalties of the rounds lost,
    so on Dice Sets a participant drank at least one sip per round lost; and
    a participant without a turn in the session has lost no round, drunk
    nothing and awarded nothing. *)
Theorem getParticipantStats_result (db : Database) (clock : nat → nat → Date)
    (participantId gameSessionId : Z) (stats : ParticipantStats) :
  getParticipantStats db clock participantId gameSessionId = Some stats →
  stats_participantId stats = participantId
  ∧ 0 ≤ roundsWon stats
  ∧ 0 ≤ roundsLost stats
  ∧ roundsWon stats + roundsLost stats
    ≤ Z.of_nat (length (getRoundsBySession db gameSessionId))
  ∧ (everyRollValid db → roundsLost stats ≤ sipsDrunk stats)
  ∧ ((∀ t, t ∈ playerTurnsTable (store db) →
           SelectPlayerTurn.gameSessionId t = gameSessionId →
           SelectPlayerTurn.participantId t ≠ participantId) →
     roundsLost stats = 0 ∧ sipsDrunk stats = 0 ∧ sipsAwarded stats = 0).
Proof.
  unfold getParticipantStats. intros Hloop.
  pose (I := λ (k : nat) (s : ParticipantStats),
          stats_participantId s = participantId
          ∧ 0 ≤ roundsWon s ∧ 0 ≤ roundsLost s
          ∧ roundsWon s + roundsLost s ≤ Z.of_nat k
          ∧ (everyRollValid db → roundsLost s ≤ sipsDrunk s)
          ∧ ((∀ t, t ∈ playerTurnsTable (store db) →
                   SelectPlayerTurn.gameSessionId t = gameSessionId →
                   SelectPlayerTurn.participantId t ≠ participantId) →
             roundsLost s = 0 ∧ sipsDrunk s = 0 ∧ sipsAwarded s = 0)).
  apply (statsLoop_invariant I db clock participantId gameSessionId _) with (k := 0%nat)
    in Hloop; [exact Hloop | | by repeat split].
  clear Hloop stats. intros k stats round r rm _ Hrm (Hid & Hwon & Hlost & Hsum & Hdrunk & Habsent).
  destruct (statsStep_cases participantId stats rm) as (Hid' & Hcount & Hawarded).
  unfold I. split; [congruence|].
  assert (∀ q, RoundModel.status rm = round_completed →
               RoundModel.losingParticipantId rm = Some q →
               ∃ t, t ∈ playerTurnsTable (store db)
                    ∧ SelectPlayerTurn.gameSessionId t = gameSessionId
                    ∧ SelectPlayerTurn.participantId t = q) as Hloser.
  { intros q Hstatus Hq.
    destruct (roundModelOf_model _ _ _ _ _ Hrm) as [Hturns Hdone].
    destruct (Hdone Hstatus) as [_ Hfind]. rewrite Hq in Hfind. symmetry in Hfind.
    apply findLoserFromTurns_cases in Hfind as (m & Hm & _ & <-).
    apply (roundModelOf_turn_rows db (clock r) round gameSessionId rm); [done|].
    by rewrite Hturns. }
  destruct Hcount as [(Hl & Hd & Hw) | (Hl & Hw & Hstatus & Hq & Hd)].
  - split; [lia|]. split; [lia|]. split; [lia|]. split.
    + intros Hvalid. specialize (Hdrunk Hvalid). lia.
    + intros Hnone. destruct (Habsent Hnone) as (H1 & H2 & H3).
      split; [lia|]. split; [lia|].
      destruct Hawarded as [-> | (m & Hm & Hp)]; [done|].
      destruct (roundModelOf_turn_rows _ _ _ _ _ _ Hrm Hm) as (t & Hin & Hs & Hpt).
      destruct (Hnone t Hin Hs). congruence.
  - split; [lia|]. split; [lia|]. split; [lia|]. split.
    + intros Hvalid. specialize (Hdrunk Hvalid).
      destruct (roundModelOf_final_penalty _ _ _ _ _ Hvalid Hrm Hstatus) as (pen & Hpen & Hge).
      rewrite Hpen in Hd. simpl in Hd. lia.
    + intros Hnone. destruct (Hloser participantId Hstatus Hq) as (t & Hin & Hs & Hpt).
      by destruct (Hnone t Hin Hs).
Qed.

Lemma getParticipantStats_result_witness :
  ∃ stats, getParticipantStats example1Database (λ _ _, 0) 14 1 = Some stats
           ∧ roundsWon stats + roundsLost stats ≤ 1.
Proof.
  destruct (getParticipantStats example1Database (λ _ _, 0) 14 1) as [stats|] eqn:Hstats;
    [|vm_compute in Hstats; discriminate].
  exists stats. split; [done|].
  by destruct (getParticipantStats_result _ _ _ _ stats Hstats) as (_ & _ & _ & Hsum & _).
Defined.

(** ** The pattern 4,5,6 *)

Lemma isStairs456_super_stairs (dice : Dice) :
  strict_eq (sorted_values dice !! 0%nat) (Some 4)
  && strict_eq (sorted_values dice !! 1%nat) (Some 5)
  && strict_eq (sorted_values dice !! 2%nat) (Some 6)
  = bool_decide (detectSpecialRoll dice = super_stairs).
Proof.
  unfold detectSpecialRoll, strict_eq.
  destruct (sorted_values dice !! 0%nat) as [x|], (sorted_values dice !! 1%nat) as [y|],
    (sorted_values dice !! 2%nat) as [z|];
    repeat (case_bool_decide; simplify_eq; simpl; try done).
Qed.

(** X25: the context check and the classifier agree on the pattern: for any
    dice array, [isSuperStairsValid] holds exactly when the classifier says
    super stairs and the previous turn was stairs.  The turn reducer uses the
    classifier alone: a turn whose last roll is super stairs by pattern is
    stored as super stairs, is safe and has no final score, whatever the
    previous turn was. *)
Theorem super_stairs_pattern (dice : Dice) :
  (∀ previousTurnWasStairs,
     isSuperStairsValid dice previousTurnWasStairs
     = bool_decide (detectSpecialRoll dice = super_stairs) && previousTurnWasStairs)
  ∧ (∀ now turn rolls lastRoll,
       last rolls = Some lastRoll → SelectRoll.dice lastRoll = dice →
       isSuperStairsValid dice true = true →
       let m := mapPlayerTurn now turn rolls in
       PlayerTurnModel.specialRollType m = super_stairs
       ∧ PlayerTurnModel.isSafe m = true
       ∧ PlayerTurnModel.finalScore m = None).
Proof.
  assert (∀ b, isSuperStairsValid dice b
               = bool_decide (detectSpecialRoll dice = super_stairs) && b) as Hvalid.
  { intros b. unfold isSuperStairsValid. by rewrite isStairs456_super_stairs. }
  split; [exact Hvalid|].
  intros now turn rolls lastRoll Hlast <- Hpattern m.
  rewrite Hvalid, andb_true_r in Hpattern. apply bool_decide_eq_true in Hpattern.
  destruct (mapPlayerTurn_last now turn rolls lastRoll Hlast) as (Hcat & Hsafe & Hscore & _).
  fold m in Hcat, Hsafe, Hscore. by rewrite Hcat, Hsafe, Hscore, Hpattern.
Qed.

Lemma super_stairs_pattern_witness :
  PlayerTurnModel.isSafe
    (mapPlayerTurn 0 (SelectPlayerTurn.mk 1 1 1 11 1) [rollOf 1 1 [6; 4; 5]]) = true.
Proof.
  apply (super_stairs_pattern [mkDie 6 false; mkDie 4 false; mkDie 5 false]
           ) with (lastRoll := rollOf 1 1 [6; 4; 5]); reflexivity.
Defined.

(** ** Further evaluations *)

Lemma mapPlayerTurn_invariants_witness :
  ∃ s, PlayerTurnModel.finalScore
         (mapPlayerTurn 0 (SelectPlayerTurn.mk 1 1 1 11 1) [rollOf 1 1 [9; 2; 4]])
       = Some (Num s) ∧ 0 ≤ s.
Proof.
  apply (mapPlayerTurn_invariants 0 (SelectPlayerTurn.mk 1 1 1 11 1) [rollOf 1 1 [9; 2; 4]]).
  reflexivity.
Defined.

Lemma findLoserFromTurns_result_witness :
  ∃ t, t ∈ mapTurns (λ _, 0) example1Turns example1Rolls
       ∧ PlayerTurnModel.isSafe t = false
       ∧ PlayerTurnModel.participantId t = 14.
Proof.
  apply (findLoserFromTurns_result (mapTurns (λ _, 0) example1Turns example1Rolls)).
  vm_compute. reflexivity.
Defined.

Lemma mapGame_result_witness :
  mapGame (λ _ _, 0) (SelectGameSession.mk 1 "owner" (mkConfig "New Game" false) 100 None)
    [] [SelectRound.mk 1 1 1 [11] 500] {[ 1 := [SelectPlayerTurn.mk 1 1 1 11 1] ]}
    {[ 1 := [SelectRoll.mk 1 1 1 1 [] 0] ]}
  = None.
Proof.
  apply mapGame_result. exists 0%nat, (SelectRound.mk 1 1 1 [11] 500).
  split; reflexivity.
Defined.

Lemma createPlayerOrder_any_input_witness :
  createPlayerOrder (λ _, 0%nat) 9 [1; 2; 3] true ≡ₚ 9 :: [1; 2; 3].
Proof.
  apply (createPlayerOrder_any_input (λ _, 0%nat) 9 [1; 2; 3] true).
  intros Hin. repeat (apply elem_of_cons in Hin as [Hin | Hin]; [discriminate|]).
  by apply elem_of_nil in Hin.
Defined.
